(** * WAVEmbedder: RIFF INFO chunk writer, WAV splicer, spreadsheet decoder
      and filename matcher

    A shallow embedding of [embed.py], [metadata.py] and the matching loop of
    [main.py], followed by the properties of the written specification that
    were checked against it.

    Conventions of the embedding:
    - a Python [str] is the list of its code points ([list N]);
    - a Python [bytes] is a [list byte];
    - a Python [int] that is never negative in the code is an [N];
    - an exception is a value of [pyerr], carried by the [result] monad;
    - a [dict] with string keys is a [gmap string _];
    - file reads and writes of [add_riff_metadata] are its byte argument and
      its byte result. *)

From stdpp Require Import gmap strings list.
From Stdlib Require Import NArith Strings.Byte.
From Equations Require Import Equations.

Open Scope N_scope.

(** ** The Python values the code works on *)

Abbreviation pystr := (list N).
Abbreviation bytes := (list byte).

Inductive pyerr : Type :=
| UnicodeEncodeError
| OverflowError
| RuntimeError (msg : string)
| ValueError (msg : string).

Inductive result (A : Type) : Type :=
| Ok (a : A)
| Raise (e : pyerr).
Arguments Ok {A} a.
Arguments Raise {A} e.

#[global] Instance result_ret : MRet result := fun _ a => Ok a.
#[global] Instance result_bind : MBind result := fun _ _ f r =>
  match r with
  | Ok a => f a
  | Raise e => Raise e
  end.

#[global] Instance byte_eq_dec : EqDecision byte := Byte.byte_eq_dec.

(** A [str] literal of the source (ASCII only), as code points. *)
Definition u (s : string) : pystr :=
  map Byte.to_N (String.list_byte_of_string s).

(** A [bytes] literal of the source, [b"..."]. *)
Definition b (s : string) : bytes := String.list_byte_of_string s.

(** [len(x)] *)
Definition len {A} (l : list A) : N := N.of_nat (length l).

(** [x[lo:hi]] for non-negative [lo] and [hi]: out-of-range bounds are
    clamped, never an error. *)
Definition slice {A} (l : list A) (lo hi : N) : list A :=
  take (N.to_nat hi - N.to_nat lo)%nat (drop (N.to_nat lo) l).

(** [x[:hi]] and [x[lo:]] *)
Definition slice_to {A} (l : list A) (hi : N) : list A := take (N.to_nat hi) l.
Definition slice_from {A} (l : list A) (lo : N) : list A := drop (N.to_nat lo) l.

(** The byte whose value is [n mod 256]. *)
Definition byte_of_N (n : N) : byte :=
  match Byte.of_N (n mod 256) with
  | Some x => x
  | None => x00
  end.

(** [n.to_bytes(length, "little")]: raises [OverflowError] when [n] does not
    fit. *)
Fixpoint le_digits (length : nat) (n : N) : bytes :=
  match length with
  | O => []
  | S k => byte_of_N n :: le_digits k (n / 256)
  end.

Definition int_to_bytes_little (n : N) (length : nat) : result bytes :=
  if decide (n < 256 ^ N.of_nat length) then Ok (le_digits length n)
  else Raise OverflowError.

(** [int.from_bytes(bs, "little")] *)
Definition int_from_bytes_little (bs : bytes) : N :=
  foldr (fun x acc => Byte.to_N x + 256 * acc) 0 bs.

(** [s.encode("utf-8")]: one to four bytes per code point;
    [UnicodeEncodeError] on a surrogate (a [str] holds no code point above
    U+10FFFF; the model raises there as well). *)
Definition utf8_encode_cp (c : N) : result bytes :=
  if decide (c < 0x80) then Ok [byte_of_N c]
  else if decide (c < 0x800) then
    Ok [byte_of_N (0xC0 + c / 64); byte_of_N (0x80 + c mod 64)]
  else if decide (c < 0x10000) then
    if decide (0xD800 <= c <= 0xDFFF) then Raise UnicodeEncodeError
    else Ok [byte_of_N (0xE0 + c / 4096); byte_of_N (0x80 + (c / 64) mod 64);
             byte_of_N (0x80 + c mod 64)]
  else if decide (c < 0x110000) then
    Ok [byte_of_N (0xF0 + c / 262144); byte_of_N (0x80 + (c / 4096) mod 64);
        byte_of_N (0x80 + (c / 64) mod 64); byte_of_N (0x80 + c mod 64)]
  else Raise UnicodeEncodeError.

Fixpoint str_encode_utf8 (s : pystr) : result bytes :=
  match s with
  | [] => Ok []
  | c :: s' =>
      x ← utf8_encode_cp c;
      xs ← str_encode_utf8 s';
      mret (x ++ xs)
  end.

(** [sep.join(parts)] *)
Fixpoint str_join (sep : pystr) (parts : list pystr) : pystr :=
  match parts with
  | [] => []
  | [p] => p
  | p :: ps => p ++ sep ++ str_join sep ps
  end.

(** Truth value of a [str]: non-empty. *)
Definition truthy (s : pystr) : bool :=
  match s with
  | [] => false
  | _ :: _ => true
  end.

(** ** embed.py *)

(** [encode_riff_info], lines 8-14. The tags passed are the four ASCII
    literals INAM, IART, IALB and ICMT, so [tag.encode("ascii")] is [b tag]. *)
Definition encode_riff_info (tag : string) (value : pystr) : result bytes :=
  value_bytes ← str_encode_utf8 value;
  let value_bytes :=
    if decide (len value_bytes mod 2 = 1) then value_bytes ++ [x00]
    else value_bytes in
  let size := len value_bytes in
  size_bytes ← int_to_bytes_little size 4;
  mret (b tag ++ size_bytes ++ value_bytes).

(** Lines 16-33: the entries, appended to [metadata_bytes] one after the
    other. *)
Definition append_entry (metadata_dict : gmap string pystr)
    (key tag : string) (metadata_bytes : bytes) : result bytes :=
  match metadata_dict !! key with
  | Some value =>
      e ← encode_riff_info tag value;
      mret (metadata_bytes ++ e)
  | None => mret metadata_bytes
  end.

Definition append_comment (metadata_dict : gmap string pystr)
    (key label : string) (comments : list pystr) : list pystr :=
  match metadata_dict !! key with
  | Some value => comments ++ [u label ++ value]
  | None => comments
  end.

Definition build_comments (metadata_dict : gmap string pystr) : list pystr :=
  let comments := [] in
  let comments := append_comment metadata_dict "BPM" "BPM: " comments in
  let comments := append_comment metadata_dict "Key" "Key: " comments in
  let comments := append_comment metadata_dict "Publishers" "Publishers: " comments in
  comments.

Definition build_metadata_bytes (metadata_dict : gmap string pystr) : result bytes :=
  let metadata_bytes := [] in
  metadata_bytes ← append_entry metadata_dict "Track Title" "INAM" metadata_bytes;
  metadata_bytes ← append_entry metadata_dict "Composers" "IART" metadata_bytes;
  metadata_bytes ← append_entry metadata_dict "Source Program" "IALB" metadata_bytes;
  let comments := build_comments metadata_dict in
  match comments with
  | [] => mret metadata_bytes
  | _ :: _ =>
      let comment_str := str_join (u " | ") comments in
      e ← encode_riff_info "ICMT" comment_str;
      mret (metadata_bytes ++ e)
  end.

(** Lines 35-38: the LIST chunk around the entries. *)
Definition build_list_chunk (metadata_dict : gmap string pystr) : result bytes :=
  metadata_bytes ← build_metadata_bytes metadata_dict;
  let list_chunk_data := b "INFO" ++ metadata_bytes in
  let list_chunk_size := len list_chunk_data in
  size_bytes ← int_to_bytes_little list_chunk_size 4;
  mret (b "LIST" ++ size_bytes ++ list_chunk_data).

(** Lines 48-57: the scan for the end of the "fmt " chunk, from [pos]. The
    loop ends because [pos] grows by at least 8 at each turn. *)
Equations? find_fmt_end (wav_data : bytes) (pos : N) : option N
  by wf (N.to_nat (len wav_data - pos)) lt :=
  find_fmt_end wav_data pos with decide (pos + 8 <= len wav_data) => {
    | right _ := None
    | left _ with bool_decide (slice wav_data pos (pos + 4) = b "fmt ") => {
        | true :=
            Some (pos + 8 + int_from_bytes_little (slice wav_data (pos + 4) (pos + 8)))
        | false :=
            find_fmt_end wav_data
              (pos + 8 + int_from_bytes_little (slice wav_data (pos + 4) (pos + 8))) } }.
Proof. lia. Qed.

(** Lines 44-62: header check, scan, insertion. *)
Definition splice (wav_data list_chunk : bytes) : result bytes :=
  if bool_decide (slice wav_data 0 4 ≠ b "RIFF")
     || bool_decide (slice wav_data 8 12 ≠ b "WAVE")
  then Raise (RuntimeError "Not a valid WAV file.")
  else
    match find_fmt_end wav_data 12 with
    | None => Raise (RuntimeError "No 'fmt ' chunk found.")
    | Some fmt_end =>
        Ok (slice_to wav_data fmt_end ++ list_chunk ++ slice_from wav_data fmt_end)
    end.

(** [add_riff_metadata], lines 7-65: [wav_data] is the content read from
    [input_wav_path], the result is the content written to
    [output_wav_path]. *)
Definition add_riff_metadata (wav_data : bytes)
    (metadata_dict : gmap string pystr) : result bytes :=
  list_chunk ← build_list_chunk metadata_dict;
  splice wav_data list_chunk.

(** ** metadata.py *)

(** [c.isspace()] for one code point: the characters [str.strip()] removes. *)
Definition isspace (c : N) : bool :=
  (9 <=? c) && (c <=? 13) || (28 <=? c) && (c <=? 32)
  || (c =? 0x85) || (c =? 0xA0) || (c =? 0x1680)
  || (0x2000 <=? c) && (c <=? 0x200A)
  || (c =? 0x2028) || (c =? 0x2029) || (c =? 0x202F) || (c =? 0x205F)
  || (c =? 0x3000).

Fixpoint str_lstrip (s : pystr) : pystr :=
  match s with
  | [] => []
  | c :: s' => if isspace c then str_lstrip s' else s
  end.

Definition str_rstrip (s : pystr) : pystr := reverse (str_lstrip (reverse s)).

(** [s.strip()] *)
Definition str_strip (s : pystr) : pystr := str_rstrip (str_lstrip s).

(** A cell of a row: [None] is Python's [None]; any other value is kept as
    the text [str(value)] gives for it (a CSV cell is already a [str]). *)
Abbreviation cell := (option pystr).
Abbreviation row := (list cell).

(** The dataclass of lines 9-17. *)
Record TrackMetadata : Type := {
  filename_from_data : pystr;
  track_title : pystr;
  source_program : pystr;
  bpm : pystr;
  key : pystr;
  writers : list pystr;
  publishers : list pystr
}.

(** [_safe_get], lines 196-202, with [default = '']. Every index passed in
    this module is non-negative. *)
Definition _safe_get (r : row) (index : nat) : pystr :=
  match r !! index with
  | Some (Some value) => str_strip value
  | Some None => []
  | None => []
  end.

(** [any([...])] and [filter(None, [...])] on strings. *)
Definition any_truthy (l : list pystr) : bool := existsb truthy l.
Definition filter_truthy (l : list pystr) : list pystr := filter (fun s => truthy s = true) l.

(** [_format_writer], lines 161-177. *)
Definition _format_writer (first middle last pro cae share : pystr) : option pystr :=
  if negb (any_truthy [first; middle; last]) then None
  else
    let components := [] in
    let components :=
      if truthy first || truthy middle || truthy last then
        let name := str_join (u " ") (filter_truthy [first; middle; last]) in
        components ++ [str_strip name]
      else components in
    let components :=
      if truthy pro then components ++ [u "(" ++ pro ++ u ")"] else components in
    let components :=
      if truthy cae then components ++ [u "[" ++ cae ++ u "]"] else components in
    let components :=
      if truthy share then components ++ [share ++ u "%"] else components in
    match components with
    | [] => None
    | _ :: _ => Some (str_join (u " ") components)
    end.

(** [_format_publisher], lines 180-193. *)
Definition _format_publisher (name pro cae share : pystr) : option pystr :=
  if negb (truthy name) then None
  else
    let components := [name] in
    let components :=
      if truthy pro then components ++ [u "(" ++ pro ++ u ")"] else components in
    let components :=
      if truthy cae then components ++ [u "[" ++ cae ++ u "]"] else components in
    let components :=
      if truthy share then components ++ [share ++ u "%"] else components in
    match components with
    | [] => None
    | _ :: _ => Some (str_join (u " ") components)
    end.

(** [if x: l.append(x)] for an [Optional[str]]: appended when neither [None]
    nor empty. *)
Definition append_opt (l : list pystr) (o : option pystr) : list pystr :=
  match o with
  | Some s => if truthy s then l ++ [s] else l
  | None => l
  end.

(** [_parse_writers], lines 120-139: the loop over [range(5)], with its
    [break]. *)
Fixpoint _parse_writers_loop (r : row) (start_idx : nat) (indices : list nat)
    (writers : list pystr) : list pystr :=
  match indices with
  | [] => writers
  | i :: rest =>
      let offset := (start_idx + i * 10)%nat in
      if decide (length r <= offset + 5)%nat then writers
      else
        let writer :=
          _format_writer (_safe_get r offset) (_safe_get r (offset + 1))
            (_safe_get r (offset + 2)) (_safe_get r (offset + 3))
            (_safe_get r (offset + 4)) (_safe_get r (offset + 5)) in
        _parse_writers_loop r start_idx rest (append_opt writers writer)
  end.

Definition _parse_writers (r : row) (start_idx : nat) : list pystr :=
  _parse_writers_loop r start_idx (seq 0 5) [].

(** [_parse_publishers], lines 141-158. *)
Fixpoint _parse_publishers_loop (r : row) (start_idx : nat) (indices : list nat)
    (publishers : list pystr) : list pystr :=
  match indices with
  | [] => publishers
  | i :: rest =>
      let offset := (start_idx + i * 10)%nat in
      if decide (length r <= offset + 3)%nat then publishers
      else
        let publisher :=
          _format_publisher (_safe_get r offset) (_safe_get r (offset + 1))
            (_safe_get r (offset + 2)) (_safe_get r (offset + 3)) in
        _parse_publishers_loop r start_idx rest (append_opt publishers publisher)
  end.

Definition _parse_publishers (r : row) (start_idx : nat) : list pystr :=
  _parse_publishers_loop r start_idx (seq 0 5) [].

(** [_parse_excel], lines 29-72. The workbook is given as loaded: the rows
    of each sheet, in [wb.sheetnames] order. Nothing in the loops raises. *)
Fixpoint _parse_excel_sheet (rows : list row) (metadata_list : list TrackMetadata)
    : list TrackMetadata :=
  match rows with
  | [] => metadata_list
  | r :: rest =>
      if decide (length r < 34)%nat then _parse_excel_sheet rest metadata_list
      else
        let metadata :=
          {| filename_from_data := _safe_get r 0;
             track_title := _safe_get r 1;
             source_program := _safe_get r 2;
             bpm := _safe_get r 4;
             key := _safe_get r 5;
             writers := _parse_writers r 12;
             publishers := _parse_publishers r 18 |} in
        _parse_excel_sheet rest (metadata_list ++ [metadata])
  end.

Fixpoint _parse_excel_sheets (sheets : list (list row))
    (metadata_list : list TrackMetadata) : list TrackMetadata :=
  match sheets with
  | [] => metadata_list
  | sheet :: rest =>
      _parse_excel_sheets rest (_parse_excel_sheet sheet metadata_list)
  end.

Definition _parse_excel (wb : list (list row)) : result (list TrackMetadata) :=
  let metadata_list := [] in
  Ok (_parse_excel_sheets wb metadata_list).

(** [_parse_csv], lines 75-117. The file is given as the rows [csv.reader]
    yields. [next(reader)] on a file without rows raises [StopIteration],
    which the [except Exception] clause turns into [ValueError]. *)
Fixpoint _parse_csv_rows (rows : list row) (metadata_list : list TrackMetadata)
    : list TrackMetadata :=
  match rows with
  | [] => metadata_list
  | r :: rest =>
      if decide (length r < 34)%nat then _parse_csv_rows rest metadata_list
      else
        let metadata :=
          {| filename_from_data := _safe_get r 0;
             track_title := _safe_get r 1;
             source_program := _safe_get r 2;
             bpm := _safe_get r 4;
             key := _safe_get r 5;
             writers := _parse_writers r 12;
             publishers := _parse_publishers r 18 |} in
        _parse_csv_rows rest (metadata_list ++ [metadata])
  end.

Definition _parse_csv (reader : list row) : result (list TrackMetadata) :=
  let metadata_list := [] in
  match reader with
  | [] => Raise (ValueError "Error parsing CSV file: ")
  | _header :: reader => Ok (_parse_csv_rows reader metadata_list)
  end.

(** ** main.py, lines 115-151: joining the records to the files *)

(** [needle in haystack] on strings. *)
Fixpoint str_startswith (s prefix : pystr) : bool :=
  match prefix, s with
  | [], _ => true
  | _ :: _, [] => false
  | p :: prefix', c :: s' => bool_decide (p = c) && str_startswith s' prefix'
  end.

Fixpoint str_in (needle haystack : pystr) : bool :=
  str_startswith haystack needle
  || match haystack with
     | [] => false
     | _ :: haystack' => str_in needle haystack'
     end.

(** [needle] occurs in [haystack], as the specification says it: some text
    before, the needle, some text after. *)
Definition substring (needle haystack : pystr) : Prop :=
  ∃ before after, haystack = before ++ needle ++ after.

(** The dict built at lines 59-69 and 93-103: always these nine keys. *)
Record FileInfo : Type := {
  File_Path : pystr;
  Uploaded_Audio : pystr;
  Filename_From_Data : pystr;
  Track_Title : pystr;
  Source_Program : pystr;
  BPM : pystr;
  Key : pystr;
  Composers : pystr;
  Publishers : pystr
}.

Section MatchEngine.
(** [str.lower()] follows the Unicode case tables of the interpreter; it is
    a parameter of the model. *)
Variable lower : pystr -> pystr.

(** Lines 131-142. *)
Fixpoint title_loop (metadata_list : list TrackMetadata)
    (audio_filename : pystr) (new_entry : FileInfo) : FileInfo :=
  match metadata_list with
  | [] => new_entry
  | m :: rest =>
      let pattern := lower (track_title m) ++ u "_" in
      if str_in pattern audio_filename then
        {| File_Path := File_Path new_entry;
           Uploaded_Audio := Uploaded_Audio new_entry;
           Filename_From_Data := Filename_From_Data new_entry;
           Track_Title := track_title m;
           Source_Program := source_program m;
           BPM := bpm m;
           Key := key m;
           Composers := str_join (u ", ") (writers m);
           Publishers := str_join (u ", ") (publishers m) |}
      else title_loop rest audio_filename new_entry
  end.

(** Lines 145-148. *)
Fixpoint filename_loop (metadata_list : list TrackMetadata)
    (audio_filename : pystr) (new_entry : FileInfo) : FileInfo :=
  match metadata_list with
  | [] => new_entry
  | m :: rest =>
      if str_in (lower (filename_from_data m)) audio_filename then
        {| File_Path := File_Path new_entry;
           Uploaded_Audio := Uploaded_Audio new_entry;
           Filename_From_Data := filename_from_data m;
           Track_Title := Track_Title new_entry;
           Source_Program := Source_Program new_entry;
           BPM := BPM new_entry;
           Key := Key new_entry;
           Composers := Composers new_entry;
           Publishers := Publishers new_entry |}
      else filename_loop rest audio_filename new_entry
  end.

(** Lines 117-150, the body of the loop over the files. *)
Definition match_file (metadata_list : list TrackMetadata)
    (file_info : FileInfo) : FileInfo :=
  let new_entry := file_info in
  let audio_filename := lower (Uploaded_Audio file_info) in
  let new_entry :=
    {| File_Path := File_Path new_entry;
       Uploaded_Audio := Uploaded_Audio new_entry;
       Filename_From_Data := Filename_From_Data new_entry;
       Track_Title := [];
       Source_Program := [];
       BPM := [];
       Key := [];
       Composers := [];
       Publishers := [] |} in
  let new_entry := title_loop metadata_list audio_filename new_entry in
  let new_entry := filename_loop metadata_list audio_filename new_entry in
  new_entry.

(** Lines 115-151. *)
Definition match_files (metadata_list : list TrackMetadata)
    (wav_files : list FileInfo) : list FileInfo :=
  map (match_file metadata_list) wav_files.

(** The two tests of the loops, as the specification words them: the
    lower-cased title followed by an underscore, respectively the
    lower-cased file name of the record, occurs in the lower-cased name of
    the audio file. *)
Definition title_hit (audio_filename : pystr) (m : TrackMetadata) : Prop :=
  substring (lower (track_title m) ++ u "_") audio_filename.

Definition name_hit (audio_filename : pystr) (m : TrackMetadata) : Prop :=
  substring (lower (filename_from_data m)) audio_filename.
End MatchEngine.

(** The six metadata fields of an entry are those of the record [m]. *)
Definition metadata_from (new_entry : FileInfo) (m : TrackMetadata) : Prop :=
  Track_Title new_entry = track_title m ∧
  Source_Program new_entry = source_program m ∧
  BPM new_entry = bpm m ∧
  Key new_entry = key m ∧
  Composers new_entry = str_join (u ", ") (writers m) ∧
  Publishers new_entry = str_join (u ", ") (publishers m).

(** The six metadata fields of an entry are blank. *)
Definition metadata_blank (new_entry : FileInfo) : Prop :=
  Track_Title new_entry = [] ∧ Source_Program new_entry = [] ∧
  BPM new_entry = [] ∧ Key new_entry = [] ∧
  Composers new_entry = [] ∧ Publishers new_entry = [].

(** Lower-casing restricted to ASCII letters, where it coincides with
    [str.lower()]; used to run the matcher on ASCII examples. *)
Definition ascii_lower (s : pystr) : pystr :=
  map (fun c => if (65 <=? c) && (c <=? 90) then c + 32 else c) s.

(** ** Definitions that follow the written specification

    These are not translations of code: each states, in the words of the
    specification, what the code is compared with below. *)

(** The two failures of the splice, as the specification names them. *)
Definition InvalidFormat : pyerr := RuntimeError "Not a valid WAV file.".
Definition MissingChunk : pyerr := RuntimeError "No 'fmt ' chunk found.".

(** The declared size of an entry or chunk: bytes 4 to 8, little-endian. *)
Definition size_field (chunk : bytes) : N :=
  int_from_bytes_little (slice chunk 4 8).

(** The pad rule of RIFF: one zero byte after an odd number of bytes. *)
Definition pad_of (value_bytes : bytes) : bytes :=
  if decide (len value_bytes mod 2 = 1) then [x00] else [].

(** An INFO entry as a tag and a text; a list of them encoded in order, and
    wrapped as a LIST chunk. *)
Fixpoint encode_entries (entries : list (string * pystr)) : result bytes :=
  match entries with
  | [] => Ok []
  | (tag, value) :: rest =>
      e ← encode_riff_info tag value;
      es ← encode_entries rest;
      mret (e ++ es)
  end.

Definition list_chunk_of_entries (entries : list (string * pystr)) : result bytes :=
  metadata_bytes ← encode_entries entries;
  size_bytes ← int_to_bytes_little (len (b "INFO" ++ metadata_bytes)) 4;
  mret (b "LIST" ++ size_bytes ++ b "INFO" ++ metadata_bytes).

(** "Label: value" for each of BPM, Key, Publishers that is present, in that
    order. *)
Definition comment_labels (m : gmap string pystr) : list pystr :=
  concat (map (fun '(k, label) =>
                 match m !! k with
                 | Some v => [u label ++ v]
                 | None => []
                 end)
              [("BPM", "BPM: "); ("Key", "Key: "); ("Publishers", "Publishers: ")]).

Definition comment_entry (m : gmap string pystr) : list (string * pystr) :=
  match comment_labels m with
  | [] => []
  | _ :: _ => [("ICMT", str_join (u " | ") (comment_labels m))]
  end.

(** The entries when a field is mapped as soon as it is present. *)
Definition entries_when_present (m : gmap string pystr) : list (string * pystr) :=
  concat (map (fun '(k, tag) =>
                 match m !! k with
                 | Some v => [(tag, v)]
                 | None => []
                 end)
              [("Track Title", "INAM"); ("Composers", "IART"); ("Source Program", "IALB")])
  ++ comment_entry m.

(** The entries when a field is mapped only if present and non-empty. *)
Definition entries_when_present_and_nonempty (m : gmap string pystr)
    : list (string * pystr) :=
  concat (map (fun '(k, tag) =>
                 match m !! k with
                 | Some v => if truthy v then [(tag, v)] else []
                 | None => []
                 end)
              [("Track Title", "INAM"); ("Composers", "IART"); ("Source Program", "IALB")])
  ++ comment_entry m.

(** A code point [encode("utf-8")] accepts: a Unicode scalar value. *)
Definition scalar_value (c : N) : Prop :=
  c < 0xD800 ∨ (0xDFFF < c ∧ c < 0x110000).

(** A bound on the bytes a list of entries takes: tag, size, pad and at most
    four bytes per code point. *)
Fixpoint entries_bound (entries : list (string * pystr)) : N :=
  match entries with
  | [] => 0
  | (_, value) :: rest => 9 + 4 * len value + entries_bound rest
  end.

(** The size a chunk header at [pos] declares, and whether it is a "fmt "
    header. *)
Definition chunk_size_at (wav_data : bytes) (pos : N) : N :=
  int_from_bytes_little (slice wav_data (pos + 4) (pos + 8)).

Definition is_fmt_at (wav_data : bytes) (pos : N) : Prop :=
  slice wav_data pos (pos + 4) = b "fmt ".

#[global] Instance is_fmt_at_dec wav_data pos : Decision (is_fmt_at wav_data pos).
Proof. unfold is_fmt_at. apply _. Defined.

(** One turn of the scan over a chunk that is not "fmt ", and the offsets the
    scan visits from [pos]. *)
Inductive scan_visits (wav_data : bytes) (pos : N) : N -> Prop :=
| scan_here : scan_visits wav_data pos pos
| scan_next pos' :
    scan_visits wav_data pos pos' ->
    pos' + 8 <= len wav_data ->
    ¬ is_fmt_at wav_data pos' ->
    scan_visits wav_data pos (pos' + 8 + chunk_size_at wav_data pos').

(** A string on which [strip()] changes nothing, as [_safe_get] returns. *)
Definition stripped (s : pystr) : Prop := str_strip s = s.

(** Neither the first nor the last character is white space. *)
Definition no_space_ends (s : pystr) : Prop :=
  (∀ c, head s = Some c -> isspace c = false) ∧
  (∀ c, last s = Some c -> isspace c = false).

(** A component is left out when its field is empty. *)
Definition component (prefix : string) (field : pystr) (suffix : string)
    : list pystr :=
  if truthy field then [u prefix ++ field ++ u suffix] else [].

(** "First Middle Last (PRO) [CAE] Share%", joined by single spaces. *)
Definition writer_entry (first middle last pro cae share : pystr) : option pystr :=
  if truthy first || truthy middle || truthy last then
    Some (str_join (u " ")
            (component "" first "" ++ component "" middle ""
             ++ component "" last "" ++ component "(" pro ")"
             ++ component "[" cae "]" ++ component "" share "%"))
  else None.

Definition publisher_entry (name pro cae share : pystr) : option pystr :=
  if truthy name then
    Some (str_join (u " ")
            (component "" name "" ++ component "(" pro ")"
             ++ component "[" cae "]" ++ component "" share "%"))
  else None.

(** The record of a row that passes the column-count gate. *)
Definition record_of_row (r : row) : TrackMetadata :=
  {| filename_from_data := _safe_get r 0;
     track_title := _safe_get r 1;
     source_program := _safe_get r 2;
     bpm := _safe_get r 4;
     key := _safe_get r 5;
     writers := _parse_writers r 12;
     publishers := _parse_publishers r 18 |}.

Definition wide_enough (r : row) : Prop := (34 <= length r)%nat.

#[global] Instance wide_enough_dec r : Decision (wide_enough r).
Proof. unfold wide_enough. apply _. Defined.

(** The records of a sequence of rows: one per row with 34 cells or more,
    in the order of the rows. *)
Definition records_of_rows (rows : list row) : list TrackMetadata :=
  map record_of_row (filter wide_enough rows).

(** [m] is the first element of [l], at index [i], that satisfies [hit]. *)
Definition first_match (hit : TrackMetadata -> Prop) (l : list TrackMetadata)
    (i : nat) (m : TrackMetadata) : Prop :=
  l !! i = Some m ∧ hit m ∧
  ∀ j m', (j < i)%nat -> l !! j = Some m' -> ¬ hit m'.

(** ** Example inputs, and statements the code is compared with *)

(** The statement of C1 as written: the declared size is the length of the
    encoded value, pad byte excluded. *)
Definition declared_size_excludes_pad (tag : string) (value : pystr) : Prop :=
  ∀ entry value_bytes,
    encode_riff_info tag value = Ok entry ->
    str_encode_utf8 value = Ok value_bytes ->
    size_field entry = len value_bytes.

(** The statement of C2 as written: INAM, IART and IALB only for fields that
    are present and non-empty. *)
Definition entries_need_nonempty_field (m : gmap string pystr) : Prop :=
  build_list_chunk m = list_chunk_of_entries (entries_when_present_and_nonempty m).

(** A WAV file whose first chunk has the odd size 1 and is followed by its
    pad byte, then by a 16-byte "fmt " chunk and an empty "data" chunk. *)
Definition wav_with_odd_chunk : bytes :=
  b "RIFF" ++ [x2e; x00; x00; x00] ++ b "WAVE"
  ++ b "junk" ++ [x01; x00; x00; x00] ++ [xaa] ++ [x00]
  ++ b "fmt " ++ [x10; x00; x00; x00]
  ++ [x01; x00; x01; x00; x44; xac; x00; x00; x88; x58; x01; x00; x02; x00; x10; x00]
  ++ b "data" ++ [x00; x00; x00; x00].

(** The statement of C3 as written: after a chunk that is not "fmt " the scan
    goes on 8 + size + (size % 2) bytes further. *)
Definition scan_skips_pad (wav_data : bytes) (pos : N) : Prop :=
  pos + 8 <= len wav_data ->
  ¬ is_fmt_at wav_data pos ->
  find_fmt_end wav_data pos
    = find_fmt_end wav_data
        (pos + 8 + chunk_size_at wav_data pos + chunk_size_at wav_data pos mod 2).

(** A 16-byte "fmt " chunk, then an empty "data" chunk. *)
Definition wav_plain : bytes :=
  b "RIFF" ++ [x24; x00; x00; x00] ++ b "WAVE"
  ++ b "fmt " ++ [x10; x00; x00; x00]
  ++ [x01; x00; x01; x00; x44; xac; x00; x00; x88; x58; x01; x00; x02; x00; x10; x00]
  ++ b "data" ++ [x00; x00; x00; x00].

(** Two records and a file for which the two lookups pick different
    records. *)
Definition record_song : TrackMetadata :=
  {| filename_from_data := u "zzz"; track_title := u "Song";
     source_program := u "Album"; bpm := u "120"; key := u "Am";
     writers := [u "Jane (ASCAP) 50%"]; publishers := [u "Acme Pub [123]"] |}.

Definition record_other : TrackMetadata :=
  {| filename_from_data := u "Song_Master"; track_title := u "Other";
     source_program := []; bpm := []; key := [];
     writers := []; publishers := [] |}.

Definition file_song : FileInfo :=
  {| File_Path := u "/tmp/Song_Master.wav"; Uploaded_Audio := u "Song_Master.wav";
     Filename_From_Data := []; Track_Title := []; Source_Program := [];
     BPM := []; Key := []; Composers := []; Publishers := [] |}.

Definition record_empty : TrackMetadata :=
  {| filename_from_data := []; track_title := [];
     source_program := u "Nowhere"; bpm := []; key := [];
     writers := []; publishers := [] |}.

(** ** More of the code: tag frames, the dict of a file, uploads *)

(** [s.split(",")]: the separator of the source is the one character ",",
    given here as its code point; the result is never empty. *)
Fixpoint str_split (sep : N) (s : pystr) : list pystr :=
  match s with
  | [] => [[]]
  | c :: s' =>
      if decide (c = sep) then [] :: str_split sep s'
      else
        match str_split sep s' with
        | [] => [[c]]
        | p :: ps => (c :: p) :: ps
        end
  end.

(** The frames of [mutagen.id3] the code builds, all with [encoding=3]. *)
Inductive id3_frame : Type :=
| TIT2 (text : pystr)
| TPE1 (text : pystr)
| TALB (text : pystr)
| TBPM (text : pystr)
| TKEY (text : pystr)
| COMM (lang desc text : pystr)
| TCOM (text : pystr)
| TPUB (text : pystr).

Definition add_frame (metadata_dict : gmap string pystr) (key : string)
    (frame : pystr -> id3_frame) (tags : list id3_frame) : list id3_frame :=
  match metadata_dict !! key with
  | Some value => tags ++ [frame value]
  | None => tags
  end.

(** The loops of lines 95-100: one frame per part of the comma-split
    value, stripped. *)
Definition add_split_frames (metadata_dict : gmap string pystr) (key : string)
    (frame : pystr -> id3_frame) (tags : list id3_frame) : list id3_frame :=
  match metadata_dict !! key with
  | Some value => tags ++ map (λ part, frame (str_strip part)) (str_split 44 value)
  | None => tags
  end.

(** [add_id3_metadata], lines 68-102, as the calls [audio.tags.add(...)] it
    makes after [audio.tags.clear()], in order. The values are [str], so
    [str(metadata_dict["BPM"])] is the value. What the tag object does with
    the frames and [audio.save()] belong to the library. *)
Definition add_id3_metadata (metadata_dict : gmap string pystr) : list id3_frame :=
  let tags := [] in
  let tags := add_frame metadata_dict "Track Title" TIT2 tags in
  let tags := add_frame metadata_dict "Composers" TPE1 tags in
  let tags := add_frame metadata_dict "Source Program" TALB tags in
  let tags := add_frame metadata_dict "BPM" TBPM tags in
  let tags := add_frame metadata_dict "Key" TKEY tags in
  let comments := [] in
  let comments := append_comment metadata_dict "BPM" "BPM: " comments in
  let comments := append_comment metadata_dict "Key" "Key: " comments in
  let comments := append_comment metadata_dict "Publishers" "Publishers: " comments in
  let tags :=
    match comments with
    | [] => tags
    | _ :: _ =>
        tags ++ [COMM (u "eng") (u "Description") (str_join (u " | ") comments)]
    end in
  let tags := add_split_frames metadata_dict "Composers" TCOM tags in
  let tags := add_split_frames metadata_dict "Publishers" TPUB tags in
  tags.

(** main.py, line 246: the dict handed to [embed_metadata] for a file, with
    its six keys in the order of the comprehension. *)
Definition metadata_dict_of (file_info : FileInfo) : gmap string pystr :=
  let d := ∅ in
  let d := <["Track Title" := Track_Title file_info]> d in
  let d := <["Source Program" := Source_Program file_info]> d in
  let d := <["BPM" := BPM file_info]> d in
  let d := <["Key" := Key file_info]> d in
  let d := <["Composers" := Composers file_info]> d in
  let d := <["Publishers" := Publishers file_info]> d in
  d.

(** main.py, lines 93-103: the entry appended for a new file. *)
Definition new_file_entry (file_path uploaded_audio : pystr) : FileInfo :=
  {| File_Path := file_path;
     Uploaded_Audio := uploaded_audio;
     Filename_From_Data := [];
     Track_Title := [];
     Source_Program := [];
     BPM := [];
     Key := [];
     Composers := [];
     Publishers := [] |}.

Section Uploads.
(** [os.path.join(st.session_state.temp_dir, name)], a parameter of the
    model. *)
Variable temp_path : pystr -> pystr.

(** main.py, lines 84-103: the loop over the uploaded files, on the list
    kept in the session; [uploaded_names] are the names of the uploads. *)
Fixpoint add_uploaded_files (uploaded_names : list pystr)
    (wav_files : list FileInfo) : list FileInfo :=
  match uploaded_names with
  | [] => wav_files
  | name :: rest =>
      let temp_file_path := temp_path name in
      let file_exists :=
        existsb (λ file_info, bool_decide (File_Path file_info = temp_file_path))
          wav_files in
      if negb file_exists then
        add_uploaded_files rest (wav_files ++ [new_file_entry temp_file_path name])
      else add_uploaded_files rest wav_files
  end.
End Uploads.

(** The writer groups of a row that [_parse_writers] reads in full: group
    [i] starts at [start_idx + 10 * i] and needs its sixth cell. *)
Definition writer_group_fits (r : row) (start_idx i : nat) : Prop :=
  (start_idx + i * 10 + 5 < length r)%nat.

Definition publisher_group_fits (r : row) (start_idx i : nat) : Prop :=
  (start_idx + i * 10 + 3 < length r)%nat.

#[global] Instance writer_group_fits_dec r s i : Decision (writer_group_fits r s i).
Proof. unfold writer_group_fits. apply _. Defined.

#[global] Instance publisher_group_fits_dec r s i :
  Decision (publisher_group_fits r s i).
Proof. unfold publisher_group_fits. apply _. Defined.

(** The entry of one writer group, none when the formatter gives [None] or
    an empty text. *)
Definition writer_of_group (r : row) (start_idx i : nat) : list pystr :=
  let offset := (start_idx + i * 10)%nat in
  append_opt []
    (_format_writer (_safe_get r offset) (_safe_get r (offset + 1))
       (_safe_get r (offset + 2)) (_safe_get r (offset + 3))
       (_safe_get r (offset + 4)) (_safe_get r (offset + 5))).

Definition publisher_of_group (r : row) (start_idx i : nat) : list pystr :=
  let offset := (start_idx + i * 10)%nat in
  append_opt []
    (_format_publisher (_safe_get r offset) (_safe_get r (offset + 1))
       (_safe_get r (offset + 2)) (_safe_get r (offset + 3))).

(** A text without surrounding white space and not empty. *)
Definition clean_text (s : pystr) : Prop := s ≠ [] ∧ no_space_ends s.

(** All the fields of a record are stripped, its writers and publishers are
    clean texts. *)
Definition clean_record (m : TrackMetadata) : Prop :=
  stripped (filename_from_data m) ∧ stripped (track_title m) ∧
  stripped (source_program m) ∧ stripped (bpm m) ∧ stripped (key m) ∧
  Forall clean_text (writers m) ∧ Forall clean_text (publishers m).

(** The first record a test accepts, as the two loops of the matcher look
    for it. *)
Definition first_hit (test : TrackMetadata -> bool)
    (metadata_list : list TrackMetadata) : option TrackMetadata :=
  List.find test metadata_list.

(** A buffer with the 16-byte "fmt " chunk of [wav_plain] cut short: the
    declared end of the chunk lies beyond the buffer. *)
Definition wav_truncated : bytes :=
  b "RIFF" ++ [x24; x00; x00; x00] ++ b "WAVE"
  ++ b "fmt " ++ [x10; x00; x00; x00] ++ [x01; x00; x01; x00].

(** The texts of the frames of one kind, in the order of the calls. *)
Definition comm_texts (tags : list id3_frame) : list pystr :=
  flat_map (λ f, match f with COMM _ _ text => [text] | _ => [] end) tags.

Definition tcom_texts (tags : list id3_frame) : list pystr :=
  flat_map (λ f, match f with TCOM text => [text] | _ => [] end) tags.

Definition tpub_texts (tags : list id3_frame) : list pystr :=
  flat_map (λ f, match f with TPUB text => [text] | _ => [] end) tags.

(** The keys [add_riff_metadata] and [add_id3_metadata] look up. *)
Definition metadata_keys : list string :=
  ["Track Title"; "Composers"; "Source Program"; "BPM"; "Key"; "Publishers"].


(** * Properties *)

(** ** Bytes and integers *)

Lemma byte_of_N_to_N n : Byte.to_N (byte_of_N n) = n mod 256.
Proof.
  unfold byte_of_N.
  destruct (Byte.of_N (n mod 256)) as [x|] eqn:E.
  - by apply Byte.to_of_N.
  - apply Byte.of_N_None_iff in E.
    pose proof (N.mod_upper_bound n 256 ltac:(done)). lia.
Qed.

Lemma length_le_digits k n : length (le_digits k n) = k.
Proof. revert n. induction k; intros; simpl; auto. Qed.

Lemma int_from_le_digits k n :
  n < 256 ^ N.of_nat k -> int_from_bytes_little (le_digits k n) = n.
Proof.
  revert n. induction k as [|k IH]; intros n Hn.
  - simpl in *. lia.
  - cbn [le_digits int_from_bytes_little foldr].
    rewrite byte_of_N_to_N.
    fold (int_from_bytes_little (le_digits k (n / 256))).
    rewrite IH.
    + pose proof (N.div_mod n 256). lia.
    + rewrite Nat2N.inj_succ, N.pow_succ_r' in Hn.
      apply N.Div0.div_lt_upper_bound. lia.
Qed.

Lemma int_to_bytes_little_ok n k bs :
  int_to_bytes_little n k = Ok bs ->
  n < 256 ^ N.of_nat k ∧ bs = le_digits k n.
Proof.
  unfold int_to_bytes_little. case_decide; [|done].
  intros [= <-]. done.
Qed.

Lemma len_app {A} (l1 l2 : list A) : len (l1 ++ l2) = len l1 + len l2.
Proof. unfold len. rewrite length_app. lia. Qed.

Lemma slice_app_mid {A} (l1 l2 l3 : list A) :
  slice (l1 ++ l2 ++ l3) (len l1) (len l1 + len l2) = l2.
Proof.
  unfold slice, len.
  rewrite Nat2N.id, drop_app_length.
  replace (N.to_nat _ - _)%nat with (length l2) by lia.
  by rewrite take_app_length.
Qed.

Lemma slice_4_8 (tag size_bytes rest : bytes) :
  len tag = 4 -> len size_bytes = 4 -> slice (tag ++ size_bytes ++ rest) 4 8 = size_bytes.
Proof.
  intros Ht Hs. pose proof (slice_app_mid tag size_bytes rest) as H.
  by rewrite Ht, Hs in H.
Qed.

Lemma slice_0_4 (tag rest : bytes) :
  len tag = 4 -> slice (tag ++ rest) 0 4 = tag.
Proof.
  intros Ht. pose proof (slice_app_mid [] tag rest) as H.
  by rewrite Ht in H.
Qed.

Lemma len_le_digits k n : len (le_digits k n) = N.of_nat k.
Proof. unfold len. by rewrite length_le_digits. Qed.

Lemma length_b4 tag : String.length tag = 4%nat -> len (b tag) = 4.
Proof.
  intros H. unfold len, b.
  do 5 (destruct tag as [|? tag]; simpl in H; try discriminate). done.
Qed.

(** ** RIFF INFO entries *)

Lemma bind_Ok {A B} (r : result A) (f : A -> result B) y :
  (r ≫= f) = Ok y -> ∃ x, r = Ok x ∧ f x = Ok y.
Proof. destruct r; [eauto | discriminate]. Qed.

Lemma mret_Ok {A} (x y : A) : mret x = Ok y -> x = y.
Proof. by intros [= ->]. Qed.

Ltac inv_bind H :=
  let x := fresh "x" in
  let Hx := fresh "Hx" in
  apply bind_Ok in H as (x & Hx & H).

(** What [encode_riff_info] returns, byte by byte. *)
Lemma encode_riff_info_inv tag value entry :
  encode_riff_info tag value = Ok entry ->
  ∃ value_bytes,
    str_encode_utf8 value = Ok value_bytes ∧
    len (value_bytes ++ pad_of value_bytes) < 256 ^ 4 ∧
    entry = b tag ++ le_digits 4 (len (value_bytes ++ pad_of value_bytes))
              ++ (value_bytes ++ pad_of value_bytes).
Proof.
  unfold encode_riff_info. intros H.
  inv_bind H. exists x. split; [done|].
  inv_bind H. apply int_to_bytes_little_ok in Hx0 as [Hlt ->].
  injection H as <-.
  unfold pad_of. case_decide; rewrite ?app_nil_r in *; done.
Qed.

Lemma encode_riff_info_success tag value value_bytes :
  str_encode_utf8 value = Ok value_bytes ->
  len (value_bytes ++ pad_of value_bytes) < 256 ^ 4 ->
  ∃ entry, encode_riff_info tag value = Ok entry.
Proof.
  intros Hv Hlen. unfold encode_riff_info. rewrite Hv. cbn.
  unfold pad_of in Hlen. unfold int_to_bytes_little.
  case_decide; rewrite ?app_nil_r in Hlen; case_decide; try lia; eauto.
Qed.

Lemma len_pad_of value_bytes :
  len (value_bytes ++ pad_of value_bytes) = len value_bytes + len value_bytes mod 2.
Proof.
  rewrite len_app. unfold pad_of.
  pose proof (N.mod_upper_bound (len value_bytes) 2 ltac:(done)).
  case_decide; [change (len [x00]) with 1 | change (len (@nil byte)) with 0];
    revert H H0; generalize (len value_bytes mod 2); lia.
Qed.

(** C1, counterexample: for the one-byte value "a" under INAM the entry is
    INAM 02 00 00 00 'a' 00: the size field is 2, the encoded value has 1
    byte. *)
Lemma encode_riff_info_size_counts_pad :
  ¬ declared_size_excludes_pad "INAM" (u "a").
Proof.
  intros H.
  specialize (H (b "INAM" ++ [x02; x00; x00; x00] ++ b "a" ++ [x00]) (b "a")
                eq_refl eq_refl).
  vm_compute in H. discriminate.
Qed.

(** C1 (amended): every entry [encode_riff_info] returns is the 4-byte tag,
    a 4-byte little-endian size, the UTF-8 bytes of the value and one 0x00
    pad byte when their number is odd; the size field is the byte length of
    the value with the pad byte counted, that is the length rounded up to
    the next even number. *)
Theorem encode_riff_info_size_field tag value entry :
  String.length tag = 4%nat ->
  encode_riff_info tag value = Ok entry ->
  ∃ value_bytes,
    str_encode_utf8 value = Ok value_bytes ∧
    entry = b tag ++ slice entry 4 8 ++ value_bytes ++ pad_of value_bytes ∧
    size_field entry = len value_bytes + len (pad_of value_bytes) ∧
    size_field entry = len value_bytes + len value_bytes mod 2.
Proof.
  intros Htag H.
  apply encode_riff_info_inv in H as (vb & Hvb & Hlt & ->).
  exists vb. split; [done|].
  assert (Hs : slice (b tag ++ le_digits 4 (len (vb ++ pad_of vb)) ++ vb ++ pad_of vb) 4 8
               = le_digits 4 (len (vb ++ pad_of vb))).
  { apply slice_4_8; [by apply length_b4 | apply len_le_digits]. }
  unfold size_field. rewrite Hs.
  rewrite int_from_le_digits by done.
  split; [done|]. split; [apply len_app | apply len_pad_of].
Qed.

Lemma encode_riff_info_size_field_witness :
  ∃ value_bytes,
    str_encode_utf8 (u "abc") = Ok value_bytes ∧
    (b "IART" ++ [x04; x00; x00; x00] ++ b "abc" ++ [x00])
      = b "IART" ++ slice (b "IART" ++ [x04; x00; x00; x00] ++ b "abc" ++ [x00]) 4 8
          ++ value_bytes ++ pad_of value_bytes ∧
    size_field (b "IART" ++ [x04; x00; x00; x00] ++ b "abc" ++ [x00])
      = len value_bytes + len (pad_of value_bytes) ∧
    size_field (b "IART" ++ [x04; x00; x00; x00] ++ b "abc" ++ [x00])
      = len value_bytes + len value_bytes mod 2.
Proof.
  apply (encode_riff_info_size_field "IART" (u "abc")); reflexivity.
Defined.

(** ** The LIST chunk *)

#[local] Arguments encode_riff_info : simpl never.

Lemma build_comments_labels m : build_comments m = comment_labels m.
Proof.
  unfold build_comments, comment_labels, append_comment. cbn.
  destruct (m !! "BPM"), (m !! "Key"), (m !! "Publishers"); reflexivity.
Qed.

(** The entries are those of the fields that are present, in the order
    INAM, IART, IALB, ICMT, errors included. *)
Lemma build_metadata_bytes_entries m :
  build_metadata_bytes m = encode_entries (entries_when_present m).
Proof.
  unfold build_metadata_bytes, entries_when_present, comment_entry, append_entry.
  rewrite build_comments_labels. generalize (comment_labels m) as labels.
  intros labels. cbn [map concat].
  destruct (m !! "Track Title") as [v1|]; cbn;
    [destruct (encode_riff_info "INAM" v1); cbn; [|done]|];
  (destruct (m !! "Composers") as [v2|]; cbn;
    [destruct (encode_riff_info "IART" v2); cbn; [|done]|]);
  (destruct (m !! "Source Program") as [v3|]; cbn;
    [destruct (encode_riff_info "IALB" v3); cbn; [|done]|]);
  (destruct labels as [|c cs]; cbn;
    [|match goal with
      | |- context [encode_riff_info "ICMT" ?x] =>
          destruct (encode_riff_info "ICMT" x); cbn; [|done]
      end]);
  rewrite ?app_nil_r, <- ?app_assoc; reflexivity.
Qed.

Lemma build_list_chunk_entries m :
  build_list_chunk m = list_chunk_of_entries (entries_when_present m).
Proof.
  unfold build_list_chunk, list_chunk_of_entries.
  by rewrite build_metadata_bytes_entries.
Qed.

(** C2, counterexample: with Track Title present and empty the chunk holds
    an INAM entry of size 0, where the statement has no entry at all. *)
Lemma empty_title_still_emitted :
  entries_when_present_and_nonempty {[ "Track Title" := [] ]} = [] ∧
  build_list_chunk {[ "Track Title" := [] ]}
    = Ok (b "LIST" ++ [x0c; x00; x00; x00] ++ b "INFO"
            ++ b "INAM" ++ [x00; x00; x00; x00]) ∧
  ¬ entries_need_nonempty_field {[ "Track Title" := [] ]}.
Proof.
  split; [reflexivity|]. split; [reflexivity|].
  unfold entries_need_nonempty_field. vm_compute. discriminate.
Qed.

#[local] Set Warnings "-clear-no-such-hyp".

(** C2 (amended): the chunk holds an INAM / IART / IALB entry exactly for
    each of Track Title / Composers / Source Program that is present in the
    mapping, empty or not, and an ICMT entry exactly when one of BPM, Key,
    Publishers is present, whose value joins the "Label: value" strings of
    the present ones with " | " in the order BPM, Key, Publishers. *)
Theorem entries_follow_presence (m : gmap string pystr) :
  build_list_chunk m = list_chunk_of_entries (entries_when_present m) ∧
  (∀ tag v, (tag, v) ∈ entries_when_present m ↔
     (tag = "INAM" ∧ m !! "Track Title" = Some v) ∨
     (tag = "IART" ∧ m !! "Composers" = Some v) ∨
     (tag = "IALB" ∧ m !! "Source Program" = Some v) ∨
     (tag = "ICMT" ∧
      (is_Some (m !! "BPM") ∨ is_Some (m !! "Key") ∨ is_Some (m !! "Publishers")) ∧
      v = str_join (u " | ")
            (from_option (λ x, [u "BPM: " ++ x]) [] (m !! "BPM")
             ++ from_option (λ x, [u "Key: " ++ x]) [] (m !! "Key")
             ++ from_option (λ x, [u "Publishers: " ++ x]) [] (m !! "Publishers")))).
Proof.
  split; [apply build_list_chunk_entries|].
  intros tag v.
  unfold entries_when_present, comment_entry, comment_labels. cbn [map concat].
  destruct (m !! "Track Title") as [v1|], (m !! "Composers") as [v2|],
    (m !! "Source Program") as [v3|], (m !! "BPM") as [v4|],
    (m !! "Key") as [v5|], (m !! "Publishers") as [v6|]; cbn [app from_option];
    rewrite ?elem_of_cons, ?elem_of_nil; unfold is_Some; naive_solver.
Qed.

(** C6: whenever the chunk is built it starts with LIST, its size field is
    its length minus 8, and that size is the length of its payload: INFO
    followed by the entries with their pad bytes. *)
Theorem list_chunk_size_field (m : gmap string pystr) (chunk : bytes) :
  build_list_chunk m = Ok chunk ->
  slice chunk 0 4 = b "LIST" ∧
  8 <= len chunk ∧
  size_field chunk = len chunk - 8 ∧
  ∃ metadata_bytes,
    build_metadata_bytes m = Ok metadata_bytes ∧
    chunk = b "LIST" ++ slice chunk 4 8 ++ b "INFO" ++ metadata_bytes ∧
    size_field chunk = len (b "INFO" ++ metadata_bytes).
Proof.
  unfold build_list_chunk. intros H.
  inv_bind H. inv_bind H.
  apply int_to_bytes_little_ok in Hx0 as [Hlt ->].
  apply mret_Ok in H as <-.
  set (payload := b "INFO" ++ x) in *.
  assert (Hs : slice (b "LIST" ++ le_digits 4 (len payload) ++ payload) 4 8
               = le_digits 4 (len payload)).
  { apply slice_4_8; [done | apply len_le_digits]. }
  unfold size_field. rewrite Hs, int_from_le_digits by done.
  split; [by apply slice_0_4|].
  rewrite !len_app, len_le_digits. change (len (b "LIST")) with 4.
  split; [lia|]. split; [lia|].
  exists x. done.
Qed.

Lemma list_chunk_size_field_witness :
  slice (b "LIST" ++ [x04; x00; x00; x00] ++ b "INFO") 0 4 = b "LIST" ∧
  8 <= len (b "LIST" ++ [x04; x00; x00; x00] ++ b "INFO") ∧
  size_field (b "LIST" ++ [x04; x00; x00; x00] ++ b "INFO")
    = len (b "LIST" ++ [x04; x00; x00; x00] ++ b "INFO") - 8 ∧
  ∃ metadata_bytes,
    build_metadata_bytes ∅ = Ok metadata_bytes ∧
    b "LIST" ++ [x04; x00; x00; x00] ++ b "INFO"
      = b "LIST" ++ slice (b "LIST" ++ [x04; x00; x00; x00] ++ b "INFO") 4 8
          ++ b "INFO" ++ metadata_bytes ∧
    size_field (b "LIST" ++ [x04; x00; x00; x00] ++ b "INFO")
      = len (b "INFO" ++ metadata_bytes).
Proof.
  apply (list_chunk_size_field ∅). reflexivity.
Defined.

(** The chunk is built whenever the values are made of Unicode scalar values
    and the entries stay below 4 GiB. *)
Lemma utf8_encode_cp_scalar c :
  scalar_value c -> ∃ x, utf8_encode_cp c = Ok x ∧ len x <= 4.
Proof.
  intros Hc. unfold utf8_encode_cp, scalar_value, len in *.
  repeat case_decide; try lia; eexists; (split; [done|]); cbn [length]; lia.
Qed.

Lemma str_encode_utf8_scalar s :
  Forall scalar_value s ->
  ∃ value_bytes, str_encode_utf8 s = Ok value_bytes ∧ len value_bytes <= 4 * len s.
Proof.
  induction 1 as [|c s Hc Hs (xs & IH & Hlen)]; cbn [str_encode_utf8].
  - exists []. split; [done|]. unfold len. simpl. lia.
  - destruct (utf8_encode_cp_scalar c Hc) as (x & -> & Hx). rewrite IH. cbn.
    eexists. split; [done|]. rewrite len_app. unfold len in *. simpl. lia.
Qed.


Lemma len_pad_le value_bytes : len (pad_of value_bytes) <= 1.
Proof. unfold pad_of. case_decide; vm_compute; discriminate. Qed.

Lemma encode_entries_total entries :
  Forall (λ e, Forall scalar_value e.2) entries ->
  entries_bound entries < 256 ^ 4 ->
  ∃ metadata_bytes,
    encode_entries entries = Ok metadata_bytes ∧
    len metadata_bytes <= len (concat (map (λ e, b e.1) entries)) + entries_bound entries.
Proof.
  induction 1 as [|[tag value] rest Hv Hrest IH]; cbn [encode_entries entries_bound].
  - exists []. split; [done|]. unfold len. simpl. lia.
  - intros Hb. cbn [snd] in Hv.
    destruct (str_encode_utf8_scalar value Hv) as (vb & Hvb & Hlen).
    destruct IH as (es & -> & Hes); [lia|].
    pose proof (len_pad_le vb) as Hpad.
    destruct (encode_riff_info_success tag value vb Hvb) as [e He];
      [rewrite len_app; lia|].
    rewrite He. cbn. eexists. split; [done|].
    apply encode_riff_info_inv in He as (vb' & Hvb' & _ & ->).
    assert (vb' = vb) as -> by congruence.
    change (concat (map (λ e, b e.1) ((tag, value) :: rest)))
      with (b tag ++ concat (map (λ e, b e.1) rest)).
    rewrite !len_app, len_le_digits in *.
    change (map Ascii.byte_of_ascii (String.list_ascii_of_string tag)) with (b tag).
    lia.
Qed.

Lemma build_list_chunk_total (m : gmap string pystr) :
  Forall (λ e, Forall scalar_value e.2) (entries_when_present m) ->
  entries_bound (entries_when_present m) + 24 < 256 ^ 4 ->
  ∃ chunk, build_list_chunk m = Ok chunk.
Proof.
  intros Hs Hb. rewrite build_list_chunk_entries. unfold list_chunk_of_entries.
  destruct (encode_entries_total _ Hs) as (mb & -> & Hlen); [lia|].
  unfold mbind, result_bind.
  assert (Htags : len (concat (map (λ e, b e.1) (entries_when_present m))) <= 16).
  { unfold entries_when_present, comment_entry. cbn [map concat].
    destruct (m !! "Track Title"), (m !! "Composers"), (m !! "Source Program"),
      (comment_labels m); vm_compute; discriminate. }
  unfold int_to_bytes_little. rewrite decide_True; [by eexists|].
  rewrite len_app. change (len (b "INFO")) with 4.
  change (N.of_nat 4) with 4. lia.
Qed.

(** The encoder on one code point of each length: U+0041, U+00E9, U+20AC,
    U+1F600; a surrogate is refused. *)
Example utf8_encode_examples :
  str_encode_utf8 [0x41; 0xE9; 0x20AC; 0x1F600]
    = Ok [x41; xc3; xa9; xe2; x82; xac; xf0; x9f; x98; x80] ∧
  str_encode_utf8 [0xD800] = Raise UnicodeEncodeError.
Proof. split; reflexivity. Qed.

(** ** The scan for the "fmt " chunk *)

Lemma find_fmt_end_step wav_data pos :
  find_fmt_end wav_data pos =
    if decide (pos + 8 <= len wav_data) then
      if bool_decide (is_fmt_at wav_data pos) then
        Some (pos + 8 + chunk_size_at wav_data pos)
      else find_fmt_end wav_data (pos + 8 + chunk_size_at wav_data pos)
    else None.
Proof.
  rewrite find_fmt_end_equation_1.
  unfold is_fmt_at, chunk_size_at.
  destruct (decide (pos + 8 <= len wav_data)); cbn; [|done].
  destruct (bool_decide _); done.
Qed.

(** Every offset the scan visits from [pos] gives the same answer as [pos]. *)
Lemma find_fmt_end_visits wav_data pos pos' :
  scan_visits wav_data pos pos' ->
  find_fmt_end wav_data pos = find_fmt_end wav_data pos'.
Proof.
  induction 1 as [|p Hv IH Hle Hfmt]; [done|].
  rewrite IH, (find_fmt_end_step wav_data p).
  rewrite decide_True by done.
  by rewrite bool_decide_false.
Qed.

(** The scan ends at some visited offset: on a "fmt " header or past the
    last place where a header fits. *)
Lemma scan_ends wav_data pos :
  ∃ pos', scan_visits wav_data pos pos' ∧
    (len wav_data < pos' + 8 ∨ (pos' + 8 <= len wav_data ∧ is_fmt_at wav_data pos')).
Proof.
  remember (N.to_nat (len wav_data - pos)) as n eqn:Hn.
  revert pos Hn. induction (lt_wf n) as [n _ IH]. intros pos ->.
  destruct (decide (pos + 8 <= len wav_data)) as [Hle|Hgt].
  - destruct (decide (is_fmt_at wav_data pos)) as [Hfmt|Hfmt].
    + exists pos. split; [constructor | by right].
    + destruct (IH (N.to_nat (len wav_data - (pos + 8 + chunk_size_at wav_data pos))))
        with (pos := pos + 8 + chunk_size_at wav_data pos)
        as (p & Hp & Hend); [lia | done |].
      exists p. split; [|done].
      clear Hend. induction Hp; [by apply scan_next; [constructor|..] |].
      by apply scan_next.
  - exists pos. split; [constructor | left; lia].
Qed.

Lemma find_fmt_end_Some wav_data pos fmt_end :
  find_fmt_end wav_data pos = Some fmt_end ↔
  ∃ pos', scan_visits wav_data pos pos' ∧ pos' + 8 <= len wav_data ∧
          is_fmt_at wav_data pos' ∧ fmt_end = pos' + 8 + chunk_size_at wav_data pos'.
Proof.
  split.
  - intros H. destruct (scan_ends wav_data pos) as (p & Hp & Hend).
    rewrite (find_fmt_end_visits _ _ _ Hp), find_fmt_end_step in H.
    destruct Hend as [Hgt|[Hle Hfmt]].
    + rewrite decide_False in H by lia. done.
    + rewrite decide_True, bool_decide_true in H by done.
      exists p. naive_solver.
  - intros (p & Hp & Hle & Hfmt & ->).
    rewrite (find_fmt_end_visits _ _ _ Hp), find_fmt_end_step.
    by rewrite decide_True, bool_decide_true.
Qed.

Lemma find_fmt_end_None wav_data pos :
  find_fmt_end wav_data pos = None ↔
  ∃ pos', scan_visits wav_data pos pos' ∧ len wav_data < pos' + 8.
Proof.
  split.
  - intros H. destruct (scan_ends wav_data pos) as (p & Hp & Hend).
    rewrite (find_fmt_end_visits _ _ _ Hp), find_fmt_end_step in H.
    destruct Hend as [Hgt|[Hle Hfmt]]; [by eauto|].
    by rewrite decide_True, bool_decide_true in H.
  - intros (p & Hp & Hgt).
    rewrite (find_fmt_end_visits _ _ _ Hp), find_fmt_end_step.
    rewrite decide_False; [done | lia].
Qed.

(** C3, counterexample: in [wav_with_odd_chunk] the chunk at 12 has size 1.
    Going on from 12 + 8 + 1 + 1 = 22 finds "fmt " and its end 46; the code
    goes on from 21, reads a header across the pad byte, and finds nothing. *)
Lemma scan_does_not_skip_pad :
  find_fmt_end wav_with_odd_chunk 22 = Some 46 ∧
  find_fmt_end wav_with_odd_chunk 12 = None ∧
  ¬ scan_skips_pad wav_with_odd_chunk 12.
Proof.
  split; [reflexivity|]. split; [reflexivity|].
  intros H. unfold scan_skips_pad in H.
  assert (H1 : 12 + 8 <= len wav_with_odd_chunk) by (vm_compute; discriminate).
  assert (H2 : ¬ is_fmt_at wav_with_odd_chunk 12) by (vm_compute; discriminate).
  specialize (H H1 H2). vm_compute in H. discriminate.
Qed.

(** C3 (amended): past a chunk at [pos] that is not "fmt ", of declared size
    [size], the scan goes on at [pos + 8 + size], whether [size] is even or
    odd: the next offset visited is that one and the scan from [pos] ends as
    the scan from there. *)
Theorem scan_advances_by_declared_size (wav_data : bytes) (pos : N) :
  pos + 8 <= len wav_data ->
  ¬ is_fmt_at wav_data pos ->
  scan_visits wav_data pos (pos + 8 + chunk_size_at wav_data pos) ∧
  find_fmt_end wav_data pos
    = find_fmt_end wav_data (pos + 8 + chunk_size_at wav_data pos).
Proof.
  intros Hle Hfmt. split.
  - apply scan_next; [constructor | done | done].
  - rewrite (find_fmt_end_step wav_data pos).
    by rewrite decide_True, bool_decide_false.
Qed.

Lemma scan_advances_by_declared_size_witness :
  scan_visits wav_with_odd_chunk 12 (12 + 8 + chunk_size_at wav_with_odd_chunk 12) ∧
  find_fmt_end wav_with_odd_chunk 12
    = find_fmt_end wav_with_odd_chunk (12 + 8 + chunk_size_at wav_with_odd_chunk 12).
Proof.
  apply (scan_advances_by_declared_size wav_with_odd_chunk 12).
  - vm_compute. discriminate.
  - vm_compute. discriminate.
Defined.

(** ** The splice *)

Lemma scan_visits_ge wav_data pos pos' :
  scan_visits wav_data pos pos' -> pos <= pos'.
Proof. induction 1; lia. Qed.

Lemma splice_header_ok wav_data list_chunk :
  slice wav_data 0 4 = b "RIFF" ->
  slice wav_data 8 12 = b "WAVE" ->
  splice wav_data list_chunk =
    match find_fmt_end wav_data 12 with
    | None => Raise MissingChunk
    | Some fmt_end =>
        Ok (slice_to wav_data fmt_end ++ list_chunk ++ slice_from wav_data fmt_end)
    end.
Proof.
  intros H1 H2. unfold splice.
  rewrite (bool_decide_false (_ ≠ b "RIFF")) by (intros H; by apply H).
  rewrite (bool_decide_false (_ ≠ b "WAVE")) by (intros H; by apply H).
  done.
Qed.

Lemma splice_header_bad wav_data list_chunk :
  slice wav_data 0 4 ≠ b "RIFF" ∨ slice wav_data 8 12 ≠ b "WAVE" ->
  splice wav_data list_chunk = Raise InvalidFormat.
Proof.
  intros H. unfold splice.
  destruct (decide (slice wav_data 0 4 = b "RIFF")) as [H1|H1].
  - destruct H as [H|H]; [done|].
    rewrite (bool_decide_true (_ ≠ b "WAVE")) by done.
    by rewrite orb_true_r.
  - by rewrite (bool_decide_true (_ ≠ b "RIFF")).
Qed.

(** C4: when the header is that of a WAV file and the scan finds the end
    [fmt_end] of the "fmt " chunk, the splice returns
    [wav_data[:fmt_end] + list_chunk + wav_data[fmt_end:]]: the bytes before
    [fmt_end] stay where they were, the bytes from [fmt_end] on move up by
    the length of the chunk, and bytes 4 to 8, the RIFF size, are those of
    the input. *)
Theorem splice_inserts_after_fmt (wav_data list_chunk : bytes) (fmt_end : N) :
  slice wav_data 0 4 = b "RIFF" ->
  slice wav_data 8 12 = b "WAVE" ->
  find_fmt_end wav_data 12 = Some fmt_end ->
  ∃ new_wav_data,
    splice wav_data list_chunk = Ok new_wav_data ∧
    new_wav_data
      = slice_to wav_data fmt_end ++ list_chunk ++ slice_from wav_data fmt_end ∧
    (∀ i, (i < N.to_nat fmt_end)%nat -> (i < length wav_data)%nat ->
          new_wav_data !! i = wav_data !! i) ∧
    (∀ i, (N.to_nat fmt_end <= i)%nat ->
          new_wav_data !! (i + length list_chunk)%nat = wav_data !! i) ∧
    slice new_wav_data 4 8 = slice wav_data 4 8.
Proof.
  intros H1 H2 Hfmt.
  eexists. split; [by rewrite splice_header_ok, Hfmt|]. split; [done|].
  apply find_fmt_end_Some in Hfmt as (p & Hp & Hle & _ & Hend).
  apply scan_visits_ge in Hp.
  unfold slice_to, slice_from, slice, len in *.
  set (n := N.to_nat fmt_end).
  assert (Hn : (20 <= n)%nat) by lia.
  assert (Hlen : (20 <= length wav_data)%nat) by lia.
  clearbody n. clear - Hn Hlen.
  split; [|split].
  - intros i Hi Hi'.
    rewrite lookup_app_l by (rewrite length_take; lia).
    by apply lookup_take_lt.
  - intros i Hi.
    destruct (decide (n <= length wav_data)%nat) as [Hle|Hgt].
    + rewrite lookup_app_r by (rewrite length_take; lia).
      rewrite lookup_app_r by (rewrite length_take; lia).
      rewrite lookup_drop, length_take. f_equal. lia.
    + rewrite !lookup_ge_None_2; [done | lia |].
      rewrite !length_app, length_take, length_drop. lia.
  - change (N.to_nat 8 - N.to_nat 4)%nat with 4%nat.
    change (N.to_nat 4) with 4%nat.
    rewrite drop_app_le by (rewrite length_take; lia).
    rewrite take_app_le by (rewrite length_drop, length_take; lia).
    rewrite take_drop_commute, take_take.
    rewrite (take_drop_commute wav_data). f_equal. f_equal. lia.
Qed.

Lemma splice_inserts_after_fmt_witness :
  ∃ new_wav_data,
    splice wav_plain (b "LIST" ++ [x04; x00; x00; x00] ++ b "INFO") = Ok new_wav_data ∧
    new_wav_data
      = slice_to wav_plain 36 ++ (b "LIST" ++ [x04; x00; x00; x00] ++ b "INFO")
          ++ slice_from wav_plain 36 ∧
    (∀ i, (i < N.to_nat 36)%nat -> (i < length wav_plain)%nat ->
          new_wav_data !! i = wav_plain !! i) ∧
    (∀ i, (N.to_nat 36 <= i)%nat ->
          new_wav_data
            !! (i + length (b "LIST" ++ [x04; x00; x00; x00] ++ b "INFO"))%nat
          = wav_plain !! i) ∧
    slice new_wav_data 4 8 = slice wav_plain 4 8.
Proof.
  apply (splice_inserts_after_fmt wav_plain
           (b "LIST" ++ [x04; x00; x00; x00] ++ b "INFO") 36); reflexivity.
Defined.

Lemma splice_cases wav_data list_chunk :
  ((slice wav_data 0 4 ≠ b "RIFF" ∨ slice wav_data 8 12 ≠ b "WAVE") ∧
   splice wav_data list_chunk = Raise InvalidFormat) ∨
  (slice wav_data 0 4 = b "RIFF" ∧ slice wav_data 8 12 = b "WAVE" ∧
   find_fmt_end wav_data 12 = None ∧
   splice wav_data list_chunk = Raise MissingChunk) ∨
  (slice wav_data 0 4 = b "RIFF" ∧ slice wav_data 8 12 = b "WAVE" ∧
   ∃ fmt_end, find_fmt_end wav_data 12 = Some fmt_end ∧
     splice wav_data list_chunk
       = Ok (slice_to wav_data fmt_end ++ list_chunk ++ slice_from wav_data fmt_end)).
Proof.
  destruct (decide (slice wav_data 0 4 = b "RIFF")) as [H1|H1];
    [destruct (decide (slice wav_data 8 12 = b "WAVE")) as [H2|H2]|].
  - right. rewrite splice_header_ok by done.
    destruct (find_fmt_end wav_data 12) as [fmt_end|]; [right|left]; eauto 6.
  - left. split; [by right|]. apply splice_header_bad. by right.
  - left. split; [by left|]. apply splice_header_bad. by left.
Qed.

(** C5: the splice raises "Not a valid WAV file." exactly when bytes 0 to 4
    are not RIFF or bytes 8 to 12 are not WAVE; it raises "No 'fmt ' chunk
    found." exactly when the header is right and the scan from 12 comes to an
    offset where no chunk header fits any more, having met no "fmt " header;
    it returns a buffer exactly when the header is right and the scan meets a
    "fmt " header; it raises nothing else. *)
Theorem splice_outcomes (wav_data list_chunk : bytes) :
  (splice wav_data list_chunk = Raise InvalidFormat ↔
     slice wav_data 0 4 ≠ b "RIFF" ∨ slice wav_data 8 12 ≠ b "WAVE") ∧
  (splice wav_data list_chunk = Raise MissingChunk ↔
     slice wav_data 0 4 = b "RIFF" ∧ slice wav_data 8 12 = b "WAVE" ∧
     ∃ pos, scan_visits wav_data 12 pos ∧ len wav_data < pos + 8) ∧
  ((∃ new_wav_data, splice wav_data list_chunk = Ok new_wav_data) ↔
     slice wav_data 0 4 = b "RIFF" ∧ slice wav_data 8 12 = b "WAVE" ∧
     ∃ pos, scan_visits wav_data 12 pos ∧ pos + 8 <= len wav_data ∧
            is_fmt_at wav_data pos) ∧
  (∀ e, splice wav_data list_chunk = Raise e -> e = InvalidFormat ∨ e = MissingChunk).
Proof.
  destruct (splice_cases wav_data list_chunk)
    as [[Hbad ->]|[(H1 & H2 & Hnone & ->)|(H1 & H2 & fmt_end & Hsome & ->)]].
  - split; [done|]. split; [|split].
    + split; [done|]. intros (? & ? & _). by destruct Hbad.
    + split; [by intros [? ?]|]. intros (? & ? & _). by destruct Hbad.
    + intros e [= <-]. by left.
  - pose proof Hnone as (p & Hp & Hgt)%find_fmt_end_None.
    split; [|split; [|split]].
    + split; [done|]. by intros [?|?].
    + split; [eauto 6|done].
    + split; [by intros [? ?]|].
      intros (_ & _ & p' & Hp' & Hle & Hf).
      assert (find_fmt_end wav_data 12 = Some (p' + 8 + chunk_size_at wav_data p'))
        by (apply find_fmt_end_Some; eauto).
      congruence.
    + intros e [= <-]. by right.
  - pose proof Hsome as (p & Hp & Hle & Hf & _)%find_fmt_end_Some.
    split; [|split; [|split]].
    + split; [done|]. by intros [?|?].
    + split; [done|].
      intros (_ & _ & p' & Hp' & Hgt).
      assert (find_fmt_end wav_data 12 = None) by (apply find_fmt_end_None; eauto).
      congruence.
    + split; [eauto 8|eauto].
    + done.
Qed.

(** ** The spreadsheet decoder *)

Lemma _parse_excel_sheet_records rows metadata_list :
  _parse_excel_sheet rows metadata_list = metadata_list ++ records_of_rows rows.
Proof.
  revert metadata_list. unfold records_of_rows.
  induction rows as [|r rows IH]; intros acc; cbn [_parse_excel_sheet].
  - by rewrite app_nil_r.
  - rewrite filter_cons. unfold wide_enough at 1.
    destruct (decide (length r < 34)%nat), (decide (34 <= length r)%nat);
      try lia; rewrite IH; [done|].
    by rewrite <- app_assoc.
Qed.

Lemma _parse_csv_rows_records rows metadata_list :
  _parse_csv_rows rows metadata_list = metadata_list ++ records_of_rows rows.
Proof.
  revert metadata_list. unfold records_of_rows.
  induction rows as [|r rows IH]; intros acc; cbn [_parse_csv_rows].
  - by rewrite app_nil_r.
  - rewrite filter_cons. unfold wide_enough at 1.
    destruct (decide (length r < 34)%nat), (decide (34 <= length r)%nat);
      try lia; rewrite IH; [done|].
    by rewrite <- app_assoc.
Qed.

Lemma records_of_rows_app rows1 rows2 :
  records_of_rows (rows1 ++ rows2) = records_of_rows rows1 ++ records_of_rows rows2.
Proof. unfold records_of_rows. by rewrite filter_app, map_app. Qed.

Lemma _parse_excel_sheets_records sheets metadata_list :
  _parse_excel_sheets sheets metadata_list
    = metadata_list ++ records_of_rows (concat sheets).
Proof.
  revert metadata_list.
  induction sheets as [|sheet sheets IH]; intros acc; cbn [_parse_excel_sheets concat].
  - unfold records_of_rows. by rewrite app_nil_r.
  - by rewrite IH, _parse_excel_sheet_records, records_of_rows_app, app_assoc.
Qed.

(** Both decoders return the records of the rows that are wide enough, the
    CSV one after dropping the header row. *)
Lemma _parse_excel_records wb :
  _parse_excel wb = Ok (records_of_rows (concat wb)).
Proof. unfold _parse_excel. by rewrite _parse_excel_sheets_records. Qed.

Lemma _parse_csv_records header rows :
  _parse_csv (header :: rows) = Ok (records_of_rows rows).
Proof. unfold _parse_csv. by rewrite _parse_csv_rows_records. Qed.

Lemma records_of_rows_cons_short r rows :
  (length r < 34)%nat -> records_of_rows (r :: rows) = records_of_rows rows.
Proof.
  intros Hr. unfold records_of_rows. rewrite filter_cons_False; [done|].
  unfold wide_enough. lia.
Qed.

Lemma records_of_rows_short r rows_before rows_after :
  (length r < 34)%nat ->
  records_of_rows (rows_before ++ r :: rows_after)
    = records_of_rows (rows_before ++ rows_after).
Proof.
  intros Hr. rewrite !records_of_rows_app. f_equal.
  by apply records_of_rows_cons_short.
Qed.

(** C7: a row with fewer than 34 cells adds no record and raises nothing:
    with it or without it the Excel decoder returns the same records,
    whatever the sheet and the place of the row, and so does the CSV decoder
    for a row after the header; a short row in the place of the CSV header
    is dropped as any header is. On the same rows the loops of the two
    decoders return the same records. *)
Theorem short_row_is_skipped (r : row) :
  (length r < 34)%nat ->
  (∀ sheets_before rows_before rows_after sheets_after,
     ∃ records,
       _parse_excel (sheets_before ++ (rows_before ++ r :: rows_after) :: sheets_after)
         = Ok records ∧
       _parse_excel (sheets_before ++ (rows_before ++ rows_after) :: sheets_after)
         = Ok records) ∧
  (∀ header rows_before rows_after,
     ∃ records,
       _parse_csv (header :: rows_before ++ r :: rows_after) = Ok records ∧
       _parse_csv (header :: rows_before ++ rows_after) = Ok records) ∧
  (∀ rows, _parse_csv (r :: rows) = Ok (records_of_rows rows)) ∧
  (∀ rows metadata_list,
     _parse_excel_sheet (r :: rows) metadata_list
       = _parse_excel_sheet rows metadata_list ∧
     _parse_csv_rows (r :: rows) metadata_list
       = _parse_csv_rows rows metadata_list ∧
     _parse_excel_sheet rows metadata_list = _parse_csv_rows rows metadata_list).
Proof.
  intros Hr. split; [|split; [|split]].
  - intros sb rb ra sa. eexists. rewrite !_parse_excel_records. split; [done|].
    f_equal. rewrite !concat_app, !concat_cons, !records_of_rows_app.
    by rewrite records_of_rows_cons_short.
  - intros h rb ra. eexists. rewrite !_parse_csv_records. split; [done|].
    by rewrite records_of_rows_short.
  - intros rows. apply _parse_csv_records.
  - intros rows acc.
    rewrite (_parse_excel_sheet_records (r :: rows)), (_parse_excel_sheet_records rows),
      (_parse_csv_rows_records (r :: rows)), (_parse_csv_rows_records rows).
    by rewrite records_of_rows_cons_short.
Qed.

Lemma short_row_is_skipped_witness :
  (∀ sheets_before rows_before rows_after sheets_after,
     ∃ records,
       _parse_excel (sheets_before
                     ++ (rows_before ++ [Some (u "a"); None] :: rows_after)
                     :: sheets_after)
         = Ok records ∧
       _parse_excel (sheets_before ++ (rows_before ++ rows_after) :: sheets_after)
         = Ok records) ∧
  (∀ header rows_before rows_after,
     ∃ records,
       _parse_csv (header :: rows_before ++ [Some (u "a"); None] :: rows_after)
         = Ok records ∧
       _parse_csv (header :: rows_before ++ rows_after) = Ok records) ∧
  (∀ rows, _parse_csv ([Some (u "a"); None] :: rows) = Ok (records_of_rows rows)) ∧
  (∀ rows metadata_list,
     _parse_excel_sheet ([Some (u "a"); None] :: rows) metadata_list
       = _parse_excel_sheet rows metadata_list ∧
     _parse_csv_rows ([Some (u "a"); None] :: rows) metadata_list
       = _parse_csv_rows rows metadata_list ∧
     _parse_excel_sheet rows metadata_list = _parse_csv_rows rows metadata_list).
Proof.
  apply (short_row_is_skipped [Some (u "a"); None]). simpl. lia.
Defined.

(** ** Stripped strings *)

Lemma str_lstrip_length s : (length (str_lstrip s) <= length s)%nat.
Proof. induction s as [|c s IH]; simpl; [lia|]. destruct (isspace c); simpl; lia. Qed.

Lemma str_lstrip_head s c : head (str_lstrip s) = Some c -> isspace c = false.
Proof.
  induction s as [|c' s IH]; simpl; [done|].
  destruct (isspace c') eqn:E; [done|]. simpl. by intros [= <-].
Qed.

Lemma str_lstrip_last s c : last (str_lstrip s) = Some c -> last s = Some c.
Proof.
  induction s as [|c' s IH]; simpl; [done|].
  destruct (isspace c') eqn:E; [|done].
  intros H. rewrite last_cons, (IH H). done.
Qed.

Lemma str_lstrip_id s :
  (∀ c, head s = Some c -> isspace c = false) -> str_lstrip s = s.
Proof. destruct s as [|c s]; simpl; [done|]. intros H. by rewrite (H c). Qed.

Lemma str_lstrip_id_inv s c :
  str_lstrip s = s -> head s = Some c -> isspace c = false.
Proof. intros <-. apply str_lstrip_head. Qed.

Lemma no_space_ends_stripped s : no_space_ends s -> stripped s.
Proof.
  intros [Hh Hl]. unfold stripped, str_strip, str_rstrip.
  rewrite (str_lstrip_id s) by done.
  rewrite (str_lstrip_id (reverse s)).
  - apply reverse_involutive.
  - intros c. rewrite head_reverse. apply Hl.
Qed.

Lemma str_strip_no_space_ends s : no_space_ends (str_strip s).
Proof.
  unfold str_strip, str_rstrip. split; intros c.
  - rewrite head_reverse. intros H%str_lstrip_last.
    rewrite last_reverse in H. by apply str_lstrip_head in H.
  - rewrite last_reverse. apply str_lstrip_head.
Qed.

Lemma stripped_no_space_ends s : stripped s -> no_space_ends s.
Proof. intros <-. apply str_strip_no_space_ends. Qed.

(** What [_safe_get] returns is always stripped. *)
Lemma _safe_get_stripped r index : stripped (_safe_get r index).
Proof.
  unfold _safe_get. destruct (r !! index) as [[value|]|].
  - apply no_space_ends_stripped, str_strip_no_space_ends.
  - done.
  - done.
Qed.

Lemma str_join_cons_cons sep p q ps :
  str_join sep (p :: q :: ps) = p ++ sep ++ str_join sep (q :: ps).
Proof. done. Qed.

Lemma str_join_nonempty sep p ps : p ≠ [] -> str_join sep (p :: ps) ≠ [].
Proof.
  intros Hp. destruct ps; cbn [str_join]; [done|].
  destruct p; [done|]. done.
Qed.

Lemma str_join_no_space_ends sep parts :
  Forall (λ p, p ≠ [] ∧ no_space_ends p) parts ->
  no_space_ends (str_join sep parts).
Proof.
  induction 1 as [|p ps [Hp [Hh Hl]] Hps IH]; [done|].
  destruct ps as [|q ps]; [done|].
  apply Forall_cons in Hps as [[Hq _] _].
  pose proof (str_join_nonempty sep q ps Hq) as Hne.
  change (str_join sep (p :: q :: ps)) with (p ++ sep ++ str_join sep (q :: ps)).
  destruct IH as [_ IHl]. revert Hne IHl.
  generalize (str_join sep (q :: ps)) as rest. intros rest Hne IHl.
  unfold no_space_ends. split; intros c.
  - rewrite head_app. destruct p; [done|]. apply Hh.
  - rewrite app_assoc, last_app.
    apply last_is_Some in Hne as [y Hy]. rewrite Hy. intros [= <-]. by apply IHl.
Qed.

Lemma str_join_flatten sep l1 l2 :
  l1 ≠ [] -> str_join sep (str_join sep l1 :: l2) = str_join sep (l1 ++ l2).
Proof.
  induction l1 as [|p l1 IH]; [done|]. intros _.
  destruct l1 as [|q l1]; [done|].
  specialize (IH ltac:(done)).
  change (str_join sep ((p :: q :: l1) ++ l2))
    with (p ++ sep ++ str_join sep ((q :: l1) ++ l2)).
  rewrite <- IH.
  change (str_join sep (p :: q :: l1)) with (p ++ sep ++ str_join sep (q :: l1)).
  generalize (str_join sep (q :: l1)) as rest. intros rest.
  destruct l2 as [|x l2]; [done|].
  rewrite (str_join_cons_cons sep (p ++ sep ++ rest)), (str_join_cons_cons sep rest).
  by rewrite <- !app_assoc.
Qed.

Lemma filter_truthy_components first middle last :
  filter_truthy [first; middle; last]
    = component "" first "" ++ component "" middle "" ++ component "" last "".
Proof.
  unfold component. change (u "") with (@nil N). rewrite !app_nil_r.
  by destruct first, middle, last.
Qed.

Lemma filter_truthy_Forall l : Forall (λ p, truthy p = true) (filter_truthy l).
Proof.
  unfold filter_truthy. apply Forall_forall. intros p Hp.
  by apply list_elem_of_filter in Hp as [Hp _].
Qed.

(** The name of a writer is already stripped when its three parts are. *)
Lemma writer_name_stripped first middle last :
  stripped first -> stripped middle -> stripped last ->
  str_strip (str_join (u " ") (filter_truthy [first; middle; last]))
    = str_join (u " ") (filter_truthy [first; middle; last]).
Proof.
  intros H1%stripped_no_space_ends H2%stripped_no_space_ends
    H3%stripped_no_space_ends.
  apply no_space_ends_stripped, str_join_no_space_ends.
  apply Forall_forall. intros p Hp.
  apply list_elem_of_filter in Hp as [Ht Hin].
  split; [by destruct p|].
  rewrite !elem_of_cons, elem_of_nil in Hin. naive_solver.
Qed.

Lemma _format_writer_components first middle last pro cae share :
  truthy first || truthy middle || truthy last = true ->
  _format_writer first middle last pro cae share
    = Some (str_join (u " ")
              (str_strip (str_join (u " ") (filter_truthy [first; middle; last]))
               :: component "(" pro ")" ++ component "[" cae "]"
                  ++ component "" share "%")).
Proof.
  intros Hany. unfold _format_writer, any_truthy. cbn [existsb].
  rewrite orb_false_r, orb_assoc, Hany. cbn [negb app].
  unfold component. change (u "") with (@nil N). cbn [app].
  by destruct (truthy pro), (truthy cae), (truthy share).
Qed.

(** ** Writer and publisher entries *)

Lemma _format_writer_entry first middle last pro cae share :
  stripped first -> stripped middle -> stripped last ->
  _format_writer first middle last pro cae share
    = writer_entry first middle last pro cae share.
Proof.
  intros H1 H2 H3. unfold writer_entry.
  destruct (truthy first || truthy middle || truthy last) eqn:Hany.
  - rewrite _format_writer_components by done.
    rewrite writer_name_stripped by done.
    rewrite str_join_flatten.
    + by rewrite filter_truthy_components, <- !app_assoc.
    + by destruct first, middle, last.
  - unfold _format_writer, any_truthy. cbn [existsb].
    by rewrite orb_false_r, orb_assoc, Hany.
Qed.

Lemma _format_publisher_entry name pro cae share :
  _format_publisher name pro cae share = publisher_entry name pro cae share.
Proof.
  unfold _format_publisher, publisher_entry, component.
  change (u "") with (@nil N). cbn [app]. rewrite app_nil_r.
  by destruct (truthy name), (truthy pro), (truthy cae), (truthy share).
Qed.

(** On the cells of a row, as [_parse_writers] calls it, nothing has to be
    assumed. *)
Lemma _format_writer_of_row (r : row) (offset : nat) :
  _format_writer (_safe_get r offset) (_safe_get r (offset + 1))
      (_safe_get r (offset + 2)) (_safe_get r (offset + 3))
      (_safe_get r (offset + 4)) (_safe_get r (offset + 5))
    = writer_entry (_safe_get r offset) (_safe_get r (offset + 1))
        (_safe_get r (offset + 2)) (_safe_get r (offset + 3))
        (_safe_get r (offset + 4)) (_safe_get r (offset + 5)).
Proof. apply _format_writer_entry; apply _safe_get_stripped. Qed.

(** Without stripped parts the name is stripped once more after the join:
    a first name that is one space gives a leading space before "(PRO)". *)
Example _format_writer_unstripped :
  _format_writer (u " ") [] [] (u "BMI") [] [] = Some (u " (BMI)") ∧
  writer_entry (u " ") [] [] (u "BMI") [] [] = Some (u "  (BMI)").
Proof. split; reflexivity. Qed.

(** C8: for name parts as [_safe_get] returns them (stripped), a writer
    entry exists exactly when one of first, middle, last is non-empty and is
    then the non-empty ones among first, middle, last, "(PRO)", "[CAE]",
    "Share%", each left out when its field is empty, joined by single
    spaces; a publisher entry exists exactly when the name is non-empty,
    with the same rule; the two examples of the specification hold. *)
Theorem format_writer_and_publisher
    (first middle last name pro cae share : pystr) :
  stripped first -> stripped middle -> stripped last ->
  _format_writer first middle last pro cae share
    = writer_entry first middle last pro cae share ∧
  _format_publisher name pro cae share = publisher_entry name pro cae share ∧
  (_format_writer first middle last pro cae share = None ↔
     first = [] ∧ middle = [] ∧ last = []) ∧
  (_format_publisher name pro cae share = None ↔ name = []) ∧
  _format_writer (u "Jane") [] [] (u "ASCAP") [] (u "50")
    = Some (u "Jane (ASCAP) 50%") ∧
  _format_publisher (u "Acme Pub") [] (u "123") []
    = Some (u "Acme Pub [123]").
Proof.
  intros H1 H2 H3.
  pose proof (_format_writer_entry first middle last pro cae share H1 H2 H3) as Hw.
  pose proof (_format_publisher_entry name pro cae share) as Hp.
  split; [done|]. split; [done|]. rewrite Hw, Hp.
  split; [|split; [|split; reflexivity]].
  - unfold writer_entry. destruct first, middle, last; cbn; naive_solver.
  - unfold publisher_entry. destruct name; cbn; naive_solver.
Qed.

Lemma format_writer_and_publisher_witness :
  _format_writer (u "Ann") [] (u "Lee") (u "BMI") (u "77") []
    = writer_entry (u "Ann") [] (u "Lee") (u "BMI") (u "77") [] ∧
  _format_writer (u "Ann") [] (u "Lee") (u "BMI") (u "77") []
    = Some (u "Ann Lee (BMI) [77]") ∧
  _format_publisher (u "Acme Pub") (u "BMI") (u "77") []
    = publisher_entry (u "Acme Pub") (u "BMI") (u "77") [].
Proof.
  destruct (format_writer_and_publisher (u "Ann") [] (u "Lee") (u "Acme Pub")
              (u "BMI") (u "77") [] eq_refl eq_refl eq_refl) as (Hw & Hp & _).
  split; [exact Hw|]. split; [reflexivity | exact Hp].
Defined.

(** ** Substrings *)

Lemma str_startswith_spec s prefix :
  str_startswith s prefix = true ↔ ∃ rest, s = prefix ++ rest.
Proof.
  revert s. induction prefix as [|p prefix IH]; intros s.
  - destruct s; simpl; naive_solver.
  - destruct s as [|c s]; simpl.
    + split; [done | by intros [? ?]].
    + rewrite andb_true_iff, bool_decide_eq_true, IH. naive_solver.
Qed.

Lemma str_in_spec needle haystack :
  str_in needle haystack = true ↔ substring needle haystack.
Proof.
  unfold substring. induction haystack as [|c h IH]; cbn [str_in].
  - rewrite orb_false_r, str_startswith_spec. split.
    + intros [rest H]. exists [], rest. done.
    + intros (before & after & H). exists after.
      destruct before; [done | discriminate].
  - rewrite orb_true_iff, str_startswith_spec, IH. split.
    + intros [[rest H] | (before & after & H)].
      * exists [], rest. done.
      * exists (c :: before), after. by rewrite H.
    + intros (before & after & H). destruct before as [|c' before].
      * left. by exists after.
      * right. injection H as -> H. eauto.
Qed.

Lemma substring_empty haystack : substring [] haystack.
Proof. by exists [], haystack. Qed.

Lemma substring_single c haystack : substring [c] haystack ↔ c ∈ haystack.
Proof.
  unfold substring. split.
  - intros (before & after & ->). set_solver.
  - intros (before & after & ->)%list_elem_of_split. by exists before, after.
Qed.

(** ** The match of records and files *)

Section MatchEngineFacts.
Variable lower : pystr -> pystr.

Lemma title_loop_keeps metadata_list audio_filename new_entry :
  File_Path (title_loop lower metadata_list audio_filename new_entry)
    = File_Path new_entry ∧
  Uploaded_Audio (title_loop lower metadata_list audio_filename new_entry)
    = Uploaded_Audio new_entry ∧
  Filename_From_Data (title_loop lower metadata_list audio_filename new_entry)
    = Filename_From_Data new_entry.
Proof.
  induction metadata_list as [|m l IH]; cbn [title_loop]; [done|].
  by destruct (str_in _ _).
Qed.

Lemma filename_loop_keeps metadata_list audio_filename new_entry :
  let out := filename_loop lower metadata_list audio_filename new_entry in
  File_Path out = File_Path new_entry ∧
  Uploaded_Audio out = Uploaded_Audio new_entry ∧
  Track_Title out = Track_Title new_entry ∧
  Source_Program out = Source_Program new_entry ∧
  BPM out = BPM new_entry ∧
  Key out = Key new_entry ∧
  Composers out = Composers new_entry ∧
  Publishers out = Publishers new_entry.
Proof.
  induction metadata_list as [|m l IH]; cbn [filename_loop]; [done|].
  by destruct (str_in _ _).
Qed.

Lemma first_match_cons_hit (hit : TrackMetadata -> Prop) m l :
  hit m -> first_match hit (m :: l) 0 m.
Proof. intros H. split; [done|]. split; [done|]. intros j m' Hj. lia. Qed.

Lemma first_match_cons_miss (hit : TrackMetadata -> Prop) m l i m' :
  ¬ hit m -> first_match hit l i m' -> first_match hit (m :: l) (S i) m'.
Proof.
  intros Hm (Hi & Hh & Hfirst). split; [done|]. split; [done|].
  intros [|j] m'' Hj; cbn; [by intros [= <-]|].
  apply Hfirst. lia.
Qed.

(** The title loop stops at the first record whose pattern occurs in the
    file name and copies its fields, or leaves the entry alone. *)
Lemma title_loop_spec metadata_list audio_filename new_entry :
  (∃ i m, first_match (title_hit lower audio_filename) metadata_list i m ∧
          metadata_from (title_loop lower metadata_list audio_filename new_entry) m)
  ∨ ((∀ m, m ∈ metadata_list -> ¬ title_hit lower audio_filename m) ∧
     title_loop lower metadata_list audio_filename new_entry = new_entry).
Proof.
  induction metadata_list as [|m l IH]; cbn [title_loop].
  - right. split; [|done]. intros m Hm. by apply elem_of_nil in Hm.
  - destruct (str_in _ _) eqn:E.
    + left. exists 0%nat, m. split; [|done].
      apply first_match_cons_hit. by apply str_in_spec.
    + assert (Hmiss : ¬ title_hit lower audio_filename m).
      { intros H%str_in_spec. congruence. }
      destruct IH as [(i & m' & Hfirst & Hfields)|[Hnone Heq]].
      * left. exists (S i), m'. split; [|done]. by apply first_match_cons_miss.
      * right. split; [|done]. intros m' [->|Hm']%elem_of_cons; auto.
Qed.

Lemma filename_loop_spec metadata_list audio_filename new_entry :
  (∃ i m, first_match (name_hit lower audio_filename) metadata_list i m ∧
          Filename_From_Data
            (filename_loop lower metadata_list audio_filename new_entry)
            = filename_from_data m)
  ∨ ((∀ m, m ∈ metadata_list -> ¬ name_hit lower audio_filename m) ∧
     filename_loop lower metadata_list audio_filename new_entry = new_entry).
Proof.
  induction metadata_list as [|m l IH]; cbn [filename_loop].
  - right. split; [|done]. intros m Hm. by apply elem_of_nil in Hm.
  - destruct (str_in _ _) eqn:E.
    + left. exists 0%nat, m. split; [|done].
      apply first_match_cons_hit. by apply str_in_spec.
    + assert (Hmiss : ¬ name_hit lower audio_filename m).
      { intros H%str_in_spec. congruence. }
      destruct IH as [(i & m' & Hfirst & Hfields)|[Hnone Heq]].
      * left. exists (S i), m'. split; [|done]. by apply first_match_cons_miss.
      * right. split; [|done]. intros m' [->|Hm']%elem_of_cons; auto.
Qed.

(** A record that is hit hides the records after it. *)
Lemma title_loop_shadow before r after after' audio_filename new_entry :
  title_hit lower audio_filename r ->
  title_loop lower (before ++ r :: after) audio_filename new_entry
    = title_loop lower (before ++ r :: after') audio_filename new_entry.
Proof.
  intros H%str_in_spec.
  induction before as [|m l IH]; cbn [app title_loop].
  - by rewrite H.
  - destruct (str_in (lower (track_title m) ++ u "_") audio_filename);
      [done | apply IH].
Qed.

Lemma filename_loop_shadow before r after after' audio_filename new_entry :
  name_hit lower audio_filename r ->
  filename_loop lower (before ++ r :: after) audio_filename new_entry
    = filename_loop lower (before ++ r :: after') audio_filename new_entry.
Proof.
  intros H%str_in_spec.
  induction before as [|m l IH]; cbn [app filename_loop].
  - by rewrite H.
  - destruct (str_in (lower (filename_from_data m)) audio_filename);
      [done | apply IH].
Qed.
End MatchEngineFacts.

(** C9: for a file, the six metadata fields come from the first record, in
    record order, whose lower-cased title followed by "_" occurs in the
    lower-cased file name, and are blank when there is none; the field
    Filename From Data comes from the first record whose lower-cased
    [filename_from_data] occurs in the lower-cased file name, and is left as
    it was when there is none; path and name of the file are kept; the two
    lookups can pick different records. *)
Theorem match_file_first_matches (lower : pystr -> pystr)
    (metadata_list : list TrackMetadata) (file_info : FileInfo) :
  let audio_filename := lower (Uploaded_Audio file_info) in
  let new_entry := match_file lower metadata_list file_info in
  ((∃ i m, first_match (title_hit lower audio_filename) metadata_list i m ∧
           metadata_from new_entry m)
   ∨ ((∀ m, m ∈ metadata_list -> ¬ title_hit lower audio_filename m) ∧
      metadata_blank new_entry)) ∧
  ((∃ j m, first_match (name_hit lower audio_filename) metadata_list j m ∧
           Filename_From_Data new_entry = filename_from_data m)
   ∨ ((∀ m, m ∈ metadata_list -> ¬ name_hit lower audio_filename m) ∧
      Filename_From_Data new_entry = Filename_From_Data file_info)) ∧
  File_Path new_entry = File_Path file_info ∧
  Uploaded_Audio new_entry = Uploaded_Audio file_info ∧
  (first_match (title_hit ascii_lower (ascii_lower (Uploaded_Audio file_song)))
     [record_song; record_other] 0 record_song ∧
   first_match (name_hit ascii_lower (ascii_lower (Uploaded_Audio file_song)))
     [record_song; record_other] 1 record_other ∧
   Track_Title (match_file ascii_lower [record_song; record_other] file_song)
     = u "Song" ∧
   Filename_From_Data (match_file ascii_lower [record_song; record_other] file_song)
     = u "Song_Master").
Proof.
  intros audio_filename new_entry. subst new_entry. unfold match_file.
  fold audio_filename.
  set (blank := {| File_Path := File_Path file_info;
                   Uploaded_Audio := Uploaded_Audio file_info;
                   Filename_From_Data := Filename_From_Data file_info;
                   Track_Title := []; Source_Program := []; BPM := [];
                   Key := []; Composers := []; Publishers := [] |}).
  pose proof (title_loop_keeps lower metadata_list audio_filename blank)
    as (Hpath' & Haudio' & Hname').
  pose proof (title_loop_spec lower metadata_list audio_filename blank) as Htitle.
  revert Hpath' Haudio' Hname' Htitle.
  generalize (title_loop lower metadata_list audio_filename blank) as titled.
  intros titled Hpath' Haudio' Hname' Htitle.
  pose proof (filename_loop_keeps lower metadata_list audio_filename titled)
    as (Hpath & Haudio & Ht & Hs & Hb & Hk & Hc & Hp).
  split; [|split; [|split; [|split]]].
  - destruct Htitle as [(i & m & Hfirst & Hfields)|[Hnone Heq]].
    + left. exists i, m. split; [done|].
      unfold metadata_from in *. rewrite Ht, Hs, Hb, Hk, Hc, Hp. done.
    + right. split; [done|].
      unfold metadata_blank. rewrite Ht, Hs, Hb, Hk, Hc, Hp, Heq. done.
  - destruct (filename_loop_spec lower metadata_list audio_filename titled)
      as [(j & m & Hfirst & Hfield)|[Hnone Heq]].
    + left. eauto.
    + right. split; [done|]. by rewrite Heq, Hname'.
  - by rewrite Hpath, Hpath'.
  - by rewrite Haudio, Haudio'.
  - split; [|split; [|split; reflexivity]].
    + apply first_match_cons_hit. by apply str_in_spec.
    + apply first_match_cons_miss.
      * intros H%str_in_spec. vm_compute in H. discriminate.
      * apply first_match_cons_hit. by apply str_in_spec.
Qed.

Section EmptyFields.
Variable lower : pystr -> pystr.
Hypothesis lower_empty : lower [] = [].

(** C10: a record with an empty title has the pattern "_", which occurs in
    exactly the file names that hold an underscore; a record with an empty
    [filename_from_data] is hit by every file name; for a file name it is
    hit by, what the loop returns does not depend on the records that come
    after it. *)
Theorem empty_fields_shadow_later_records
    (before after after' : list TrackMetadata) (r : TrackMetadata)
    (audio_filename : pystr) (new_entry : FileInfo) :
  (track_title r = [] ->
     lower (track_title r) ++ u "_" = u "_" ∧
     (title_hit lower audio_filename r ↔ 95 ∈ audio_filename) ∧
     (95 ∈ audio_filename ->
        title_loop lower (before ++ r :: after) audio_filename new_entry
          = title_loop lower (before ++ r :: after') audio_filename new_entry)) ∧
  (filename_from_data r = [] ->
     name_hit lower audio_filename r ∧
     filename_loop lower (before ++ r :: after) audio_filename new_entry
       = filename_loop lower (before ++ r :: after') audio_filename new_entry).
Proof.
  split.
  - intros Ht.
    assert (Hpat : lower (track_title r) ++ u "_" = [95])
      by (by rewrite Ht, lower_empty).
    assert (Hhit : title_hit lower audio_filename r ↔ 95 ∈ audio_filename)
      by (unfold title_hit; rewrite Hpat; apply substring_single).
    split; [done|]. split; [done|].
    intros H. apply title_loop_shadow. by apply Hhit.
  - intros Hf.
    assert (Hhit : name_hit lower audio_filename r)
      by (unfold name_hit; rewrite Hf, lower_empty; apply substring_empty).
    split; [done|]. by apply filename_loop_shadow.
Qed.
End EmptyFields.

Lemma empty_fields_shadow_later_records_witness :
  (u "_" = u "_" ∧
   (title_hit ascii_lower (u "song_master.wav") record_empty
      ↔ 95 ∈ u "song_master.wav") ∧
   title_loop ascii_lower ([record_other] ++ record_empty :: [record_song])
       (u "song_master.wav") file_song
     = title_loop ascii_lower ([record_other] ++ record_empty :: [])
         (u "song_master.wav") file_song) ∧
  (name_hit ascii_lower (u "song_master.wav") record_empty ∧
   filename_loop ascii_lower ([record_song] ++ record_empty :: [record_other])
       (u "song_master.wav") file_song
     = filename_loop ascii_lower ([record_song] ++ record_empty :: [])
         (u "song_master.wav") file_song).
Proof.
  destruct (empty_fields_shadow_later_records ascii_lower eq_refl
              [record_other] [record_song] [] record_empty
              (u "song_master.wav") file_song) as [Ht _].
  destruct (empty_fields_shadow_later_records ascii_lower eq_refl
              [record_song] [record_other] [] record_empty
              (u "song_master.wav") file_song) as [_ Hf].
  destruct (Ht eq_refl) as (Hpat & Hhit & Hshadow).
  split; [|exact (Hf eq_refl)].
  split; [exact Hpat|]. split; [exact Hhit|].
  apply Hshadow. vm_compute. set_solver.
Defined.

(** * Further properties of the code *)

(** ** The splice, once more *)

Lemma slice_alt {A} (l : list A) lo hi :
  lo <= hi -> slice l lo hi = drop (N.to_nat lo) (take (N.to_nat hi) l).
Proof.
  intros H. unfold slice. rewrite take_drop_commute. do 2 f_equal. lia.
Qed.

Lemma slice_agree {A} (l l' : list A) n lo hi :
  take n l = take n l' -> (N.to_nat hi <= n)%nat -> slice l lo hi = slice l' lo hi.
Proof.
  intros Heq Hhi. destruct (decide (lo <= hi)) as [Hle|Hgt].
  - rewrite !slice_alt by done. f_equal.
    rewrite <- (Nat.min_l _ _ Hhi), <- !take_take. by rewrite Heq.
  - unfold slice. by replace (N.to_nat hi - N.to_nat lo)%nat with 0%nat by lia.
Qed.

Lemma take_len_le {A} (l : list A) n :
  n <= len l -> len (take (N.to_nat n) l) = n.
Proof. unfold len. intros H. rewrite length_take. lia. Qed.

(** The scan reads only the headers before the end it finds: two buffers
    that agree up to the "fmt " header give the same walk. *)
Lemma scan_visits_agree wav_data wav_data' n pos pos' :
  take n wav_data = take n wav_data' ->
  (n <= length wav_data')%nat ->
  scan_visits wav_data pos pos' ->
  (N.to_nat pos' <= n)%nat ->
  scan_visits wav_data' pos pos'.
Proof.
  intros Heq Hn. induction 1 as [|q Hq IH Hle Hfmt]; intros Hp; [constructor|].
  assert (Hsz : chunk_size_at wav_data' q = chunk_size_at wav_data q).
  { unfold chunk_size_at. f_equal. symmetry. apply (slice_agree _ _ n); [done | lia]. }
  assert (Hid : slice wav_data' q (q + 4) = slice wav_data q (q + 4)).
  { symmetry. apply (slice_agree _ _ n); [done | lia]. }
  rewrite <- Hsz. apply scan_next.
  - apply IH. lia.
  - unfold len. lia.
  - unfold is_fmt_at in *. by rewrite Hid.
Qed.

Lemma find_fmt_end_agree wav_data wav_data' pos p :
  scan_visits wav_data pos p ->
  p + 8 <= len wav_data ->
  is_fmt_at wav_data p ->
  take (N.to_nat (p + 8)) wav_data = take (N.to_nat (p + 8)) wav_data' ->
  p + 8 <= len wav_data' ->
  find_fmt_end wav_data' pos = Some (p + 8 + chunk_size_at wav_data p).
Proof.
  intros Hp Hle Hfmt Heq Hle'. apply find_fmt_end_Some. exists p.
  split; [|split; [done|split]].
  - apply (scan_visits_agree wav_data _ (N.to_nat (p + 8))); auto; unfold len in *; lia.
  - unfold is_fmt_at in *. rewrite <- Hfmt. symmetry.
    apply (slice_agree _ _ (N.to_nat (p + 8))); [done | lia].
  - f_equal. unfold chunk_size_at. f_equal.
    apply (slice_agree _ _ (N.to_nat (p + 8))); [done | lia].
Qed.

Lemma spliced_take (wav_data list_chunk : bytes) (fmt_end : N) n :
  (n <= N.to_nat fmt_end)%nat -> (n <= length wav_data)%nat ->
  take n (slice_to wav_data fmt_end ++ list_chunk ++ slice_from wav_data fmt_end)
    = take n wav_data.
Proof.
  intros H1 H2. unfold slice_to, slice_from.
  rewrite take_app_le by (rewrite length_take; lia).
  rewrite take_take. f_equal. lia.
Qed.

Lemma spliced_len (wav_data list_chunk : bytes) (fmt_end : N) :
  len (slice_to wav_data fmt_end ++ list_chunk ++ slice_from wav_data fmt_end)
    = len wav_data + len list_chunk.
Proof.
  unfold slice_to, slice_from, len.
  rewrite !length_app, length_take, length_drop. lia.
Qed.

(** What a successful splice is made of. *)
Lemma splice_Ok wav_data list_chunk new_wav_data :
  splice wav_data list_chunk = Ok new_wav_data ->
  slice wav_data 0 4 = b "RIFF" ∧ slice wav_data 8 12 = b "WAVE" ∧
  ∃ p, scan_visits wav_data 12 p ∧ p + 8 <= len wav_data ∧ is_fmt_at wav_data p ∧
    find_fmt_end wav_data 12 = Some (p + 8 + chunk_size_at wav_data p) ∧
    new_wav_data
      = slice_to wav_data (p + 8 + chunk_size_at wav_data p) ++ list_chunk
          ++ slice_from wav_data (p + 8 + chunk_size_at wav_data p).
Proof.
  intros H.
  destruct (splice_cases wav_data list_chunk)
    as [[_ Hs]|[(_ & _ & _ & Hs)|(H1 & H2 & fmt_end & Hf & Hs)]];
    rewrite Hs in H; try discriminate.
  injection H as <-. split; [done|]. split; [done|].
  pose proof Hf as (p & Hp & Hle & Hfmt & ->)%find_fmt_end_Some.
  exists p. done.
Qed.

(** X1: a successful splice only adds bytes: the result is longer than the
    input by the length of the chunk, whatever the chunk is. *)
Theorem splice_adds_chunk_length (wav_data list_chunk new_wav_data : bytes) :
  splice wav_data list_chunk = Ok new_wav_data ->
  len new_wav_data = len wav_data + len list_chunk.
Proof.
  intros (_ & _ & p & _ & _ & _ & _ & ->)%splice_Ok. apply spliced_len.
Qed.

Lemma splice_adds_chunk_length_witness :
  len (slice_to wav_plain 36 ++ b "LISTxxxxINFO" ++ slice_from wav_plain 36)
    = len wav_plain + len (b "LISTxxxxINFO").
Proof.
  apply (splice_adds_chunk_length wav_plain (b "LISTxxxxINFO")). reflexivity.
Defined.

(** X2: the result of a splice is accepted again, with the same end of the
    "fmt " chunk, so a second splice succeeds and inserts at the same
    offset; when that offset lies inside the input, the second chunk stands
    in front of the first one, which stays in the file: embedding twice
    leaves two LIST chunks. *)
Theorem splice_twice (wav_data chunk1 chunk2 once : bytes) :
  splice wav_data chunk1 = Ok once ->
  ∃ fmt_end,
    find_fmt_end wav_data 12 = Some fmt_end ∧
    find_fmt_end once 12 = Some fmt_end ∧
    splice once chunk2
      = Ok (slice_to once fmt_end ++ chunk2 ++ slice_from once fmt_end) ∧
    (fmt_end <= len wav_data ->
     splice once chunk2
       = Ok (slice_to wav_data fmt_end ++ chunk2 ++ chunk1
               ++ slice_from wav_data fmt_end)).
Proof.
  intros (H1 & H2 & p & Hp & Hle & Hfmt & Hf & ->)%splice_Ok.
  set (fmt_end := p + 8 + chunk_size_at wav_data p) in *.
  set (once := slice_to wav_data fmt_end ++ chunk1 ++ slice_from wav_data fmt_end).
  pose proof (scan_visits_ge _ _ _ Hp) as Hge.
  assert (Ht : ∀ n, (n <= N.to_nat (p + 8))%nat -> take n once = take n wav_data).
  { intros n Hn. apply spliced_take; unfold len in *; lia. }
  assert (Hf' : find_fmt_end once 12 = Some fmt_end).
  { apply (find_fmt_end_agree wav_data); try done.
    - symmetry. by apply Ht.
    - unfold once. rewrite spliced_len. lia. }
  assert (Hs : splice once chunk2
               = Ok (slice_to once fmt_end ++ chunk2 ++ slice_from once fmt_end)).
  { rewrite splice_header_ok, Hf'; [done|..].
    - rewrite <- H1. apply (slice_agree _ _ 20); [apply Ht|]; lia.
    - rewrite <- H2. apply (slice_agree _ _ 20); [apply Ht|]; lia. }
  exists fmt_end. split; [done|]. split; [done|]. split; [done|].
  intros Hin. rewrite Hs. f_equal. unfold once, slice_to, slice_from.
  rewrite take_app_le, take_take by (rewrite length_take; unfold len in *; lia).
  rewrite drop_app_length' by (rewrite length_take; unfold len in *; lia).
  by rewrite Nat.min_id.
Qed.

Lemma splice_twice_witness :
  ∃ fmt_end,
    find_fmt_end wav_plain 12 = Some fmt_end ∧
    find_fmt_end (slice_to wav_plain 36 ++ b "LISTxxxxINFO" ++ slice_from wav_plain 36) 12
      = Some fmt_end ∧
    splice (slice_to wav_plain 36 ++ b "LISTxxxxINFO" ++ slice_from wav_plain 36)
        (b "JUNK")
      = Ok (slice_to (slice_to wav_plain 36 ++ b "LISTxxxxINFO"
                        ++ slice_from wav_plain 36) fmt_end
              ++ b "JUNK"
              ++ slice_from (slice_to wav_plain 36 ++ b "LISTxxxxINFO"
                               ++ slice_from wav_plain 36) fmt_end) ∧
    (fmt_end <= len wav_plain ->
     splice (slice_to wav_plain 36 ++ b "LISTxxxxINFO" ++ slice_from wav_plain 36)
         (b "JUNK")
       = Ok (slice_to wav_plain fmt_end ++ b "JUNK" ++ b "LISTxxxxINFO"
               ++ slice_from wav_plain fmt_end)).
Proof.
  apply (splice_twice wav_plain (b "LISTxxxxINFO") (b "JUNK")). reflexivity.
Defined.

Lemma slice_app_drop {A} (l1 l2 : list A) lo hi :
  slice (l1 ++ l2) (len l1 + lo) (len l1 + hi) = slice l2 lo hi.
Proof.
  unfold slice, len.
  replace (N.to_nat (N.of_nat (length l1) + lo)) with (length l1 + N.to_nat lo)%nat by lia.
  rewrite drop_app_add. f_equal. lia.
Qed.

Lemma slice_app_keep {A} (l1 l2 : list A) lo hi :
  hi <= len l1 -> slice (l1 ++ l2) lo hi = slice l1 lo hi.
Proof.
  intros H. apply (slice_agree _ _ (length l1)).
  - by rewrite take_app_length, take_ge.
  - unfold len in H. lia.
Qed.

(** Inside the spliced buffer, the bytes of the chunk. *)
Lemma spliced_slice (wav_data list_chunk : bytes) (fmt_end : N) lo hi :
  fmt_end <= len wav_data -> hi <= len list_chunk ->
  slice (slice_to wav_data fmt_end ++ list_chunk ++ slice_from wav_data fmt_end)
      (fmt_end + lo) (fmt_end + hi)
    = slice list_chunk lo hi.
Proof.
  intros Hin Hhi. unfold slice_to.
  pose proof (slice_app_drop (take (N.to_nat fmt_end) wav_data)
                (list_chunk ++ slice_from wav_data fmt_end) lo hi) as H.
  rewrite take_len_le in H by done. rewrite H. by apply slice_app_keep.
Qed.

(** X3: where the chunk ends up. When the end of the "fmt " chunk lies
    inside the input, the chunk occupies the bytes from that offset on and
    the rest of the input follows it unchanged; when the "fmt " chunk
    declares more bytes than the buffer holds, nothing is raised and the
    chunk is appended at the end of the buffer. *)
Theorem splice_chunk_position (wav_data list_chunk new_wav_data : bytes) (fmt_end : N) :
  splice wav_data list_chunk = Ok new_wav_data ->
  find_fmt_end wav_data 12 = Some fmt_end ->
  (fmt_end <= len wav_data ->
     slice new_wav_data fmt_end (fmt_end + len list_chunk) = list_chunk ∧
     slice_from new_wav_data (fmt_end + len list_chunk)
       = slice_from wav_data fmt_end) ∧
  (len wav_data <= fmt_end -> new_wav_data = wav_data ++ list_chunk).
Proof.
  intros (_ & _ & p & _ & _ & _ & Hf & ->)%splice_Ok Hf'.
  rewrite Hf in Hf'. injection Hf' as Hf'. rewrite Hf'. clear Hf Hf' p.
  split.
  - intros Hin. split.
    + pose proof (spliced_slice wav_data list_chunk fmt_end 0 (len list_chunk) Hin)
        as H. rewrite N.add_0_r in H. rewrite H by lia.
      unfold slice, len. rewrite Nat2N.id. change (N.to_nat 0) with 0%nat.
      rewrite Nat.sub_0_r. cbn [drop]. by rewrite take_ge.
    + unfold slice_to, slice_from, len in *.
      rewrite app_assoc, drop_app_length'; [done|].
      rewrite length_app, length_take. lia.
  - intros Hout. unfold slice_to, slice_from, len in *.
    by rewrite take_ge, drop_ge, app_nil_r by lia.
Qed.

Lemma splice_chunk_position_witness :
  (36 <= len wav_plain ->
     slice (slice_to wav_plain 36 ++ b "LISTxxxxINFO" ++ slice_from wav_plain 36)
         36 (36 + len (b "LISTxxxxINFO"))
       = b "LISTxxxxINFO" ∧
     slice_from (slice_to wav_plain 36 ++ b "LISTxxxxINFO" ++ slice_from wav_plain 36)
         (36 + len (b "LISTxxxxINFO"))
       = slice_from wav_plain 36) ∧
  (len wav_plain <= 36 ->
     slice_to wav_plain 36 ++ b "LISTxxxxINFO" ++ slice_from wav_plain 36
       = wav_plain ++ b "LISTxxxxINFO").
Proof.
  apply (splice_chunk_position wav_plain (b "LISTxxxxINFO")); reflexivity.
Defined.

(** The truncated buffer is accepted: its "fmt " chunk declares an end at
    36, the buffer has 24 bytes, the chunk goes to the end. *)
Example splice_truncated_fmt :
  find_fmt_end wav_truncated 12 = Some 36 ∧
  splice wav_truncated (b "LISTxxxxINFO") = Ok (wav_truncated ++ b "LISTxxxxINFO").
Proof. split; reflexivity. Qed.

(** ** The chunk built for a mapping *)

Lemma build_list_chunk_inv m chunk :
  build_list_chunk m = Ok chunk ->
  ∃ metadata_bytes,
    build_metadata_bytes m = Ok metadata_bytes ∧
    len (b "INFO" ++ metadata_bytes) < 256 ^ 4 ∧
    chunk = b "LIST" ++ le_digits 4 (len (b "INFO" ++ metadata_bytes))
              ++ b "INFO" ++ metadata_bytes.
Proof.
  unfold build_list_chunk. intros H.
  inv_bind H. inv_bind H.
  apply int_to_bytes_little_ok in Hx0 as [Hlt ->].
  apply mret_Ok in H as <-. eauto.
Qed.

Lemma build_list_chunk_len m chunk :
  build_list_chunk m = Ok chunk ->
  ∃ metadata_bytes,
    build_metadata_bytes m = Ok metadata_bytes ∧ len chunk = 12 + len metadata_bytes.
Proof.
  intros (mb & Hmb & _ & ->)%build_list_chunk_inv. exists mb. split; [done|].
  rewrite !len_app, len_le_digits.
  change (len (b "LIST")) with 4. change (len (b "INFO")) with 4. lia.
Qed.

Lemma add_riff_metadata_Ok wav_data m new_wav_data :
  add_riff_metadata wav_data m = Ok new_wav_data ->
  ∃ list_chunk,
    build_list_chunk m = Ok list_chunk ∧ splice wav_data list_chunk = Ok new_wav_data.
Proof. unfold add_riff_metadata. intros H. inv_bind H. eauto. Qed.

(** X4: [add_riff_metadata] leaves the RIFF size of bytes 4 to 8 as it
    was while the file grows by the chunk, which has 12 bytes at least: a
    header that was right for the input (size = length - 8) is too small
    for the output by the length of the chunk. *)
Theorem riff_size_left_behind (wav_data new_wav_data : bytes)
    (metadata_dict : gmap string pystr) :
  add_riff_metadata wav_data metadata_dict = Ok new_wav_data ->
  ∃ list_chunk,
    build_list_chunk metadata_dict = Ok list_chunk ∧
    12 <= len list_chunk ∧
    len new_wav_data = len wav_data + len list_chunk ∧
    size_field new_wav_data = size_field wav_data ∧
    (size_field wav_data + 8 = len wav_data ->
     size_field new_wav_data + 8 + len list_chunk = len new_wav_data).
Proof.
  intros (chunk & Hb & Hs)%add_riff_metadata_Ok.
  exists chunk. split; [done|].
  destruct (build_list_chunk_len _ _ Hb) as (mb & _ & Hlen).
  pose proof Hs as (_ & _ & p & Hp & Hle & _ & _ & ->)%splice_Ok.
  apply scan_visits_ge in Hp.
  assert (Hsz : size_field
                  (slice_to wav_data (p + 8 + chunk_size_at wav_data p) ++ chunk
                   ++ slice_from wav_data (p + 8 + chunk_size_at wav_data p))
                = size_field wav_data).
  { unfold size_field. f_equal. apply (slice_agree _ _ 20); [|lia].
    apply spliced_take; unfold len in *; lia. }
  rewrite spliced_len, Hsz. repeat split; lia.
Qed.

Lemma riff_size_left_behind_witness :
  ∃ list_chunk,
    build_list_chunk ∅ = Ok list_chunk ∧
    12 <= len list_chunk ∧
    len (slice_to wav_plain 36 ++ (b "LIST" ++ [x04; x00; x00; x00] ++ b "INFO")
           ++ slice_from wav_plain 36)
      = len wav_plain + len list_chunk ∧
    size_field (slice_to wav_plain 36 ++ (b "LIST" ++ [x04; x00; x00; x00] ++ b "INFO")
                  ++ slice_from wav_plain 36)
      = size_field wav_plain ∧
    (size_field wav_plain + 8 = len wav_plain ->
     size_field (slice_to wav_plain 36 ++ (b "LIST" ++ [x04; x00; x00; x00] ++ b "INFO")
                   ++ slice_from wav_plain 36) + 8 + len list_chunk
       = len (slice_to wav_plain 36 ++ (b "LIST" ++ [x04; x00; x00; x00] ++ b "INFO")
                ++ slice_from wav_plain 36)).
Proof.
  apply (riff_size_left_behind wav_plain _ ∅). reflexivity.
Defined.

Lemma even_mod2 n : N.even n = true -> n mod 2 = 0.
Proof.
  intros [k ->]%N.even_spec. rewrite N.mul_comm. apply N.Div0.mod_mul.
Qed.

Lemma even_padded n : N.even (n + n mod 2) = true.
Proof.
  apply N.even_spec. exists (n / 2 + n mod 2).
  pose proof (N.div_mod n 2 ltac:(done)) as H. revert H.
  generalize (n / 2), (n mod 2). lia.
Qed.

Lemma encode_riff_info_even tag value entry :
  len (b tag) = 4 ->
  encode_riff_info tag value = Ok entry -> N.even (len entry) = true.
Proof.
  intros Ht (vb & _ & _ & ->)%encode_riff_info_inv.
  rewrite !len_app, len_le_digits, Ht, <- len_app, len_pad_of.
  replace (4 + (N.of_nat 4 + (len vb + len vb mod 2)))
    with (len vb + len vb mod 2 + 2 * 4) by lia.
  rewrite N.even_add_mul_2. apply even_padded.
Qed.

Lemma encode_entries_even entries metadata_bytes :
  Forall (λ e, len (b e.1) = 4) entries ->
  encode_entries entries = Ok metadata_bytes -> N.even (len metadata_bytes) = true.
Proof.
  intros Ht. revert metadata_bytes.
  induction Ht as [|[tag value] rest Htag _ IH]; intros mb; cbn [encode_entries].
  - by intros [= <-].
  - intros H. inv_bind H. inv_bind H. apply mret_Ok in H as <-.
    rewrite len_app, N.even_add.
    by rewrite (encode_riff_info_even tag value x Htag Hx), (IH x0 Hx0).
Qed.

Lemma entries_when_present_tags m :
  Forall (λ e, len (b e.1) = 4) (entries_when_present m).
Proof.
  unfold entries_when_present, comment_entry. cbn [map concat].
  destruct (m !! "Track Title"), (m !! "Composers"), (m !! "Source Program"),
    (comment_labels m); repeat constructor.
Qed.

(** X5: the chunk built for a mapping has an even number of bytes, 12 at
    least, and declares an even size: every entry is padded to an even
    length, so what follows the chunk in the file keeps its parity. *)
Theorem list_chunk_even_length (metadata_dict : gmap string pystr) (list_chunk : bytes) :
  build_list_chunk metadata_dict = Ok list_chunk ->
  len list_chunk mod 2 = 0 ∧ 12 <= len list_chunk ∧ size_field list_chunk mod 2 = 0.
Proof.
  intros Hb.
  pose proof Hb as (mb & Hmb & Hlt & ->)%build_list_chunk_inv.
  destruct (build_list_chunk_len _ _ Hb) as (mb' & Hmb' & Hlen).
  assert (mb' = mb) as -> by congruence.
  rewrite build_metadata_bytes_entries in Hmb.
  pose proof (encode_entries_even _ _ (entries_when_present_tags metadata_dict) Hmb)
    as Heven.
  assert (Hs : size_field (b "LIST" ++ le_digits 4 (len (b "INFO" ++ mb))
                             ++ b "INFO" ++ mb) = 4 + len mb).
  { unfold size_field. rewrite slice_4_8; [|done|apply len_le_digits].
    rewrite int_from_le_digits by done. by rewrite len_app. }
  rewrite Hs, Hlen. split; [|split; [lia|]]; apply even_mod2.
  - replace (12 + len mb) with (len mb + 2 * 6) by lia. by rewrite N.even_add_mul_2.
  - replace (4 + len mb) with (len mb + 2 * 2) by lia. by rewrite N.even_add_mul_2.
Qed.

Lemma list_chunk_even_length_witness :
  len (b "LIST" ++ [x0e; x00; x00; x00] ++ b "INFO" ++ b "INAM"
         ++ [x02; x00; x00; x00] ++ b "a" ++ [x00]) mod 2 = 0 ∧
  12 <= len (b "LIST" ++ [x0e; x00; x00; x00] ++ b "INFO" ++ b "INAM"
               ++ [x02; x00; x00; x00] ++ b "a" ++ [x00]) ∧
  size_field (b "LIST" ++ [x0e; x00; x00; x00] ++ b "INFO" ++ b "INAM"
                ++ [x02; x00; x00; x00] ++ b "a" ++ [x00]) mod 2 = 0.
Proof.
  apply (list_chunk_even_length {[ "Track Title" := u "a" ]}). reflexivity.
Defined.

(** X6: in the file [add_riff_metadata] writes, the walk of the chunks
    with the rule of the scan steps over the inserted chunk exactly: at the
    old end of the "fmt " chunk stands a header that is not "fmt ", its
    declared size is the length of the chunk minus 8, and the next offset is
    the one where the rest of the input goes on unchanged. *)
Theorem list_chunk_is_stepped_over (wav_data new_wav_data : bytes)
    (metadata_dict : gmap string pystr) (fmt_end : N) :
  add_riff_metadata wav_data metadata_dict = Ok new_wav_data ->
  find_fmt_end wav_data 12 = Some fmt_end ->
  fmt_end <= len wav_data ->
  ∃ list_chunk,
    build_list_chunk metadata_dict = Ok list_chunk ∧
    slice new_wav_data fmt_end (fmt_end + 4) = b "LIST" ∧
    chunk_size_at new_wav_data fmt_end + 8 = len list_chunk ∧
    scan_visits new_wav_data fmt_end (fmt_end + len list_chunk) ∧
    slice_from new_wav_data (fmt_end + len list_chunk) = slice_from wav_data fmt_end.
Proof.
  intros (chunk & Hb & Hs)%add_riff_metadata_Ok Hf Hin.
  exists chunk. split; [done|].
  pose proof Hb as (mb & Hmb & Hlt & Hchunk)%build_list_chunk_inv.
  destruct (build_list_chunk_len _ _ Hb) as (mb' & Hmb' & Hlen).
  assert (mb' = mb) as -> by congruence.
  pose proof Hs as (_ & _ & p & _ & _ & _ & Hf' & Hout)%splice_Ok.
  rewrite Hf in Hf'. injection Hf' as Hfe. rewrite <- Hfe in Hout. clear Hfe p.
  assert (Hid : slice new_wav_data fmt_end (fmt_end + 4) = b "LIST").
  { rewrite Hout. pose proof (spliced_slice wav_data chunk fmt_end 0 4 Hin) as H.
    rewrite N.add_0_r in H. rewrite H by lia.
    rewrite Hchunk. by apply slice_0_4. }
  assert (Hsz : chunk_size_at new_wav_data fmt_end + 8 = len chunk).
  { unfold chunk_size_at. rewrite Hout, spliced_slice by (done || lia).
    rewrite Hchunk at 1. rewrite slice_4_8; [|done|apply len_le_digits].
    rewrite int_from_le_digits by done. rewrite len_app.
    change (len (b "INFO")) with 4. lia. }
  split; [done|]. split; [done|]. split.
  - replace (fmt_end + len chunk)
      with (fmt_end + 8 + chunk_size_at new_wav_data fmt_end) by lia.
    apply scan_next; [constructor| |].
    + rewrite Hout, spliced_len. lia.
    + unfold is_fmt_at. rewrite Hid. discriminate.
  - rewrite Hout. unfold slice_to, slice_from, len in *.
    rewrite app_assoc, drop_app_length'; [done|].
    rewrite length_app, length_take. lia.
Qed.

Lemma list_chunk_is_stepped_over_witness :
  ∃ list_chunk,
    build_list_chunk ∅ = Ok list_chunk ∧
    slice (slice_to wav_plain 36 ++ (b "LIST" ++ [x04; x00; x00; x00] ++ b "INFO")
             ++ slice_from wav_plain 36) 36 (36 + 4) = b "LIST" ∧
    chunk_size_at (slice_to wav_plain 36 ++ (b "LIST" ++ [x04; x00; x00; x00] ++ b "INFO")
                     ++ slice_from wav_plain 36) 36 + 8 = len list_chunk ∧
    scan_visits (slice_to wav_plain 36 ++ (b "LIST" ++ [x04; x00; x00; x00] ++ b "INFO")
                   ++ slice_from wav_plain 36) 36 (36 + len list_chunk) ∧
    slice_from (slice_to wav_plain 36 ++ (b "LIST" ++ [x04; x00; x00; x00] ++ b "INFO")
                  ++ slice_from wav_plain 36) (36 + len list_chunk)
      = slice_from wav_plain 36.
Proof.
  apply (list_chunk_is_stepped_over wav_plain _ ∅ 36); [reflexivity..|].
  vm_compute. discriminate.
Defined.

(** X7: no key other than the six the code names has any effect: with or
    without it the chunk, the written file and the tag frames are the
    same. *)
Theorem other_keys_are_ignored (metadata_dict : gmap string pystr)
    (k : string) (v : pystr) (wav_data : bytes) :
  k ∉ metadata_keys ->
  build_list_chunk (<[k := v]> metadata_dict) = build_list_chunk metadata_dict ∧
  add_riff_metadata wav_data (<[k := v]> metadata_dict)
    = add_riff_metadata wav_data metadata_dict ∧
  add_id3_metadata (<[k := v]> metadata_dict) = add_id3_metadata metadata_dict.
Proof.
  unfold metadata_keys. intros Hk.
  assert (Hl : ∀ k', k' ∈ ["Track Title"; "Composers"; "Source Program"; "BPM";
                            "Key"; "Publishers"] ->
               <[k := v]> metadata_dict !! k' = metadata_dict !! k').
  { intros k' Hk'. apply lookup_insert_ne. intros ->. done. }
  assert (Hb : build_list_chunk (<[k := v]> metadata_dict)
               = build_list_chunk metadata_dict).
  { unfold build_list_chunk, build_metadata_bytes, build_comments, append_entry,
      append_comment.
    by rewrite !Hl by set_solver. }
  split; [done|]. split.
  - unfold add_riff_metadata. by rewrite Hb.
  - unfold add_id3_metadata, add_frame, add_split_frames, append_comment.
    by rewrite !Hl by set_solver.
Qed.

Lemma other_keys_are_ignored_witness :
  build_list_chunk (<["Artist" := u "x"]> {[ "Key" := u "Am" ]})
    = build_list_chunk {[ "Key" := u "Am" ]} ∧
  add_riff_metadata wav_plain (<["Artist" := u "x"]> {[ "Key" := u "Am" ]})
    = add_riff_metadata wav_plain {[ "Key" := u "Am" ]} ∧
  add_id3_metadata (<["Artist" := u "x"]> {[ "Key" := u "Am" ]})
    = add_id3_metadata {[ "Key" := u "Am" ]}.
Proof.
  apply (other_keys_are_ignored {[ "Key" := u "Am" ]} "Artist" (u "x") wav_plain).
  unfold metadata_keys. set_solver.
Defined.

(** ** Errors of the chunk builder *)













Lemma Forall_scalar_literal (s : string) :
  forallb (λ c, c <? 0xD800) (u s) = true -> Forall scalar_value (u s).
Proof.
  intros H. apply Forall_forall. intros c Hc.
  rewrite forallb_forall in H. left. apply N.ltb_lt, H.
  by apply list_elem_of_In.
Qed.

Ltac scalar_parts :=
  first [ assumption
        | by apply Forall_nil
        | by apply Forall_scalar_literal
        | apply Forall_app; split; scalar_parts ].

Lemma comment_text_scalar m :
  (∀ k v, k ∈ ["BPM"; "Key"; "Publishers"] -> m !! k = Some v ->
          Forall scalar_value v ∧ len v < 2 ^ 26) ->
  Forall scalar_value (str_join (u " | ") (comment_labels m)) ∧
  len (str_join (u " | ") (comment_labels m)) < 28 + 3 * 2 ^ 26.
Proof.
  intros H.
  assert (H4 : ∀ v, m !! "BPM" = Some v -> Forall scalar_value v ∧ len v < 2 ^ 26)
    by (intros v; apply H; set_solver).
  assert (H5 : ∀ v, m !! "Key" = Some v -> Forall scalar_value v ∧ len v < 2 ^ 26)
    by (intros v; apply H; set_solver).
  assert (H6 : ∀ v, m !! "Publishers" = Some v -> Forall scalar_value v ∧ len v < 2 ^ 26)
    by (intros v; apply H; set_solver). clear H.
  unfold comment_labels. cbn [map concat].
  destruct (m !! "BPM") as [v4|]; [destruct (H4 v4 eq_refl) as [S4 L4]|];
    (destruct (m !! "Key") as [v5|]; [destruct (H5 v5 eq_refl) as [S5 L5]|]);
    (destruct (m !! "Publishers") as [v6|]; [destruct (H6 v6 eq_refl) as [S6 L6]|]);
    clear H4 H5 H6; cbn [app str_join]; change (2 ^ 26) with 67108864 in *;
    (split;
     [ scalar_parts
     | rewrite ?len_app;
       change (len (u "BPM: ")) with 5; change (len (u "Key: ")) with 5;
       change (len (u "Publishers: ")) with 12; change (len (u " | ")) with 3;
       change (len (@nil N)) with 0; lia ]).
Qed.

(** X9: the chunk is built, without error, for every mapping whose six
    values are made of Unicode scalar values (no surrogate) and have fewer
    than 2^26 characters each. *)
Theorem chunk_is_built (metadata_dict : gmap string pystr) :
  (∀ k v, k ∈ metadata_keys -> metadata_dict !! k = Some v ->
          Forall scalar_value v ∧ len v < 2 ^ 26) ->
  ∃ list_chunk, build_list_chunk metadata_dict = Ok list_chunk.
Proof.
  intros H. unfold metadata_keys in H.
  assert (H1 : ∀ v, metadata_dict !! "Track Title" = Some v -> Forall scalar_value v ∧ len v < 2 ^ 26)
    by (intros v; apply H; set_solver).
  assert (H2 : ∀ v, metadata_dict !! "Composers" = Some v -> Forall scalar_value v ∧ len v < 2 ^ 26)
    by (intros v; apply H; set_solver).
  assert (H3 : ∀ v, metadata_dict !! "Source Program" = Some v -> Forall scalar_value v ∧ len v < 2 ^ 26)
    by (intros v; apply H; set_solver).
  destruct (comment_text_scalar metadata_dict) as [SC LC].
  { intros k v Hk. apply H. set_solver. }
  clear H.
  apply build_list_chunk_total;
    unfold entries_when_present, comment_entry; cbn [map concat];
    revert SC LC;
    generalize (str_join (u " | ") (comment_labels metadata_dict)) as text;
    intros text SC LC;
    destruct (comment_labels metadata_dict) as [|c cs];
    (destruct (metadata_dict !! "Track Title") as [v1|];
     [destruct (H1 v1 eq_refl) as [S1 L1]|]);
    (destruct (metadata_dict !! "Composers") as [v2|];
     [destruct (H2 v2 eq_refl) as [S2 L2]|]);
    (destruct (metadata_dict !! "Source Program") as [v3|];
     [destruct (H3 v3 eq_refl) as [S3 L3]|]);
    clear H1 H2 H3; cbn [app entries_bound snd];
    change (2 ^ 26) with 67108864 in *; change (256 ^ 4) with 4294967296;
    first [ lia | repeat (apply Forall_cons; split; cbn [snd]); by try apply Forall_nil ].
Qed.

Lemma chunk_is_built_witness :
  ∃ list_chunk, build_list_chunk {[ "Key" := u "Am" ]} = Ok list_chunk.
Proof.
  apply (chunk_is_built {[ "Key" := u "Am" ]}).
  intros k v Hk Hv.
  destruct (decide (k = "Key")) as [->|Hne].
  - rewrite lookup_singleton_eq in Hv. injection Hv as <-.
    split; [by apply Forall_scalar_literal | vm_compute; reflexivity].
  - rewrite lookup_singleton_ne in Hv by done. discriminate.
Defined.

(** ** The dict of a file, and the tag frames *)

Lemma metadata_dict_of_lookup file_info :
  metadata_dict_of file_info !! "Track Title" = Some (Track_Title file_info) ∧
  metadata_dict_of file_info !! "Composers" = Some (Composers file_info) ∧
  metadata_dict_of file_info !! "Source Program" = Some (Source_Program file_info) ∧
  metadata_dict_of file_info !! "BPM" = Some (BPM file_info) ∧
  metadata_dict_of file_info !! "Key" = Some (Key file_info) ∧
  metadata_dict_of file_info !! "Publishers" = Some (Publishers file_info).
Proof. unfold metadata_dict_of. by repeat split; simplify_map_eq. Qed.

(** X10: for the dict main.py makes of a file, all six keys are present,
    so the chunk always holds the four entries INAM, IART, IALB, ICMT in
    this order, also for a file without any metadata, whose entries are
    then empty texts and the comment "BPM:  | Key:  | Publishers: ". *)
Theorem file_chunk_has_four_entries (file_info : FileInfo) :
  build_list_chunk (metadata_dict_of file_info)
    = list_chunk_of_entries
        [("INAM", Track_Title file_info);
         ("IART", Composers file_info);
         ("IALB", Source_Program file_info);
         ("ICMT", u "BPM: " ++ BPM file_info ++ u " | "
                    ++ u "Key: " ++ Key file_info ++ u " | "
                    ++ u "Publishers: " ++ Publishers file_info)] ∧
  (metadata_blank file_info ->
   build_list_chunk (metadata_dict_of file_info)
     = Ok (b "LIST" ++ [x40; x00; x00; x00] ++ b "INFO"
           ++ b "INAM" ++ [x00; x00; x00; x00]
           ++ b "IART" ++ [x00; x00; x00; x00]
           ++ b "IALB" ++ [x00; x00; x00; x00]
           ++ b "ICMT" ++ [x1c; x00; x00; x00] ++ b "BPM:  | Key:  | Publishers: ")).
Proof.
  assert (He : entries_when_present (metadata_dict_of file_info)
               = [("INAM", Track_Title file_info);
                  ("IART", Composers file_info);
                  ("IALB", Source_Program file_info);
                  ("ICMT", u "BPM: " ++ BPM file_info ++ u " | "
                             ++ u "Key: " ++ Key file_info ++ u " | "
                             ++ u "Publishers: " ++ Publishers file_info)]).
  { destruct (metadata_dict_of_lookup file_info) as (H1 & H2 & H3 & H4 & H5 & H6).
    unfold entries_when_present, comment_entry, comment_labels. cbn [map concat].
    rewrite H1, H2, H3, H4, H5, H6. cbn [app str_join].
    by rewrite <- !app_assoc. }
  rewrite build_list_chunk_entries, He. split; [done|].
  intros (-> & -> & -> & -> & -> & ->). vm_compute. reflexivity.
Qed.

Lemma file_chunk_has_four_entries_witness :
  build_list_chunk (metadata_dict_of file_song)
    = Ok (b "LIST" ++ [x40; x00; x00; x00] ++ b "INFO"
          ++ b "INAM" ++ [x00; x00; x00; x00]
          ++ b "IART" ++ [x00; x00; x00; x00]
          ++ b "IALB" ++ [x00; x00; x00; x00]
          ++ b "ICMT" ++ [x1c; x00; x00; x00] ++ b "BPM:  | Key:  | Publishers: ").
Proof.
  apply (file_chunk_has_four_entries file_song). by repeat split.
Defined.

Lemma comm_texts_app l1 l2 : comm_texts (l1 ++ l2) = comm_texts l1 ++ comm_texts l2.
Proof. apply flat_map_app. Qed.

Lemma tcom_texts_app l1 l2 : tcom_texts (l1 ++ l2) = tcom_texts l1 ++ tcom_texts l2.
Proof. apply flat_map_app. Qed.

Lemma tpub_texts_app l1 l2 : tpub_texts (l1 ++ l2) = tpub_texts l1 ++ tpub_texts l2.
Proof. apply flat_map_app. Qed.

Lemma texts_of_split_frames (parts : list pystr) :
  tcom_texts (map (λ part, TCOM (str_strip part)) parts) = map str_strip parts ∧
  tpub_texts (map (λ part, TPUB (str_strip part)) parts) = map str_strip parts ∧
  tcom_texts (map (λ part, TPUB (str_strip part)) parts) = [] ∧
  tpub_texts (map (λ part, TCOM (str_strip part)) parts) = [] ∧
  comm_texts (map (λ part, TCOM (str_strip part)) parts) = [] ∧
  comm_texts (map (λ part, TPUB (str_strip part)) parts) = [].
Proof.
  induction parts as [|p ps (IH1 & IH2 & IH3 & IH4 & IH5 & IH6)]; [done|].
  cbn. unfold tcom_texts, tpub_texts, comm_texts in *.
  by rewrite IH1, IH2, IH3, IH4, IH5, IH6.
Qed.

Lemma tcom_of_tcom parts :
  tcom_texts (map (λ part, TCOM (str_strip part)) parts) = map str_strip parts.
Proof. apply texts_of_split_frames. Qed.

Lemma tpub_of_tpub parts :
  tpub_texts (map (λ part, TPUB (str_strip part)) parts) = map str_strip parts.
Proof. apply texts_of_split_frames. Qed.

Lemma tcom_of_tpub parts :
  tcom_texts (map (λ part, TPUB (str_strip part)) parts) = [].
Proof. apply texts_of_split_frames. Qed.

Lemma tpub_of_tcom parts :
  tpub_texts (map (λ part, TCOM (str_strip part)) parts) = [].
Proof. apply texts_of_split_frames. Qed.

Lemma comm_of_tcom parts :
  comm_texts (map (λ part, TCOM (str_strip part)) parts) = [].
Proof. apply texts_of_split_frames. Qed.

Lemma comm_of_tpub parts :
  comm_texts (map (λ part, TPUB (str_strip part)) parts) = [].
Proof. apply texts_of_split_frames. Qed.

(** The frames of each kind, read off the calls. *)
Lemma add_id3_metadata_texts m :
  comm_texts (add_id3_metadata m) = map snd (comment_entry m) ∧
  tcom_texts (add_id3_metadata m)
    = from_option (λ v, map str_strip (str_split 44 v)) [] (m !! "Composers") ∧
  tpub_texts (add_id3_metadata m)
    = from_option (λ v, map str_strip (str_split 44 v)) [] (m !! "Publishers").
Proof.
  unfold add_id3_metadata, add_frame, add_split_frames, comment_entry.
  fold (build_comments m). rewrite build_comments_labels.
  generalize (comment_labels m) as labels. intros labels.
  destruct (m !! "Track Title") as [v1|], (m !! "Composers") as [v2|],
    (m !! "Source Program") as [v3|], (m !! "BPM") as [v4|],
    (m !! "Key") as [v5|], (m !! "Publishers") as [v6|], labels as [|c cs];
    rewrite ?comm_texts_app, ?tcom_texts_app, ?tpub_texts_app;
    rewrite ?tcom_of_tcom, ?tpub_of_tpub, ?tcom_of_tpub, ?tpub_of_tcom,
      ?comm_of_tcom, ?comm_of_tpub;
    cbn [comm_texts tcom_texts tpub_texts flat_map app from_option map snd];
    rewrite ?app_nil_r; done.
Qed.

(** X11: the tag gets a COMM frame exactly when the chunk gets an ICMT
    entry, and its text is the value of that entry: the RIFF comment and the
    ID3 comment of a file are the same text. *)
Theorem id3_comment_is_riff_comment (metadata_dict : gmap string pystr) :
  comm_texts (add_id3_metadata metadata_dict)
    = map snd (filter (λ en, en.1 = "ICMT") (entries_when_present metadata_dict)) ∧
  (∀ lang desc text,
     COMM lang desc text ∈ add_id3_metadata metadata_dict ->
     lang = u "eng" ∧ desc = u "Description").
Proof.
  split.
  - destruct (add_id3_metadata_texts metadata_dict) as (-> & _ & _).
    unfold entries_when_present, comment_entry. cbn [map concat].
    rewrite filter_app.
    destruct (metadata_dict !! "Track Title"), (metadata_dict !! "Composers"),
      (metadata_dict !! "Source Program"), (comment_labels metadata_dict); done.
  - intros lang desc text Hin.
    assert (HF : Forall (λ f, match f with
                              | COMM l d _ => l = u "eng" ∧ d = u "Description"
                              | _ => True
                              end) (add_id3_metadata metadata_dict)).
    { unfold add_id3_metadata, add_frame, add_split_frames.
      match goal with
      | |- context [match ?c with [] => _ | _ :: _ => _ end] =>
          generalize c as labels; intros labels
      end.
      destruct (metadata_dict !! "Track Title"), (metadata_dict !! "Composers"),
        (metadata_dict !! "Source Program"), (metadata_dict !! "BPM"),
        (metadata_dict !! "Key"), (metadata_dict !! "Publishers"), labels;
        repeat first [ apply Forall_app; split
                     | apply Forall_fmap, Forall_true; done
                     | by apply Forall_nil
                     | apply Forall_cons; split; [done|] ]. }
    rewrite Forall_forall in HF. apply (HF _ Hin).
Qed.













(** A writer with a comma does not come back whole. *)
Example writer_with_comma_is_cut :
  tcom_texts (add_id3_metadata {[ "Composers" := str_join (u ", ") [u "Lee, Ann"] ]})
    = [u "Lee"; u "Ann"].
Proof. reflexivity. Qed.

(** ** Cells, groups and records *)

Lemma str_lstrip_all_space s :
  Forall (λ c, isspace c = true) s -> str_lstrip s = [].
Proof. induction 1 as [|c s Hc _ IH]; cbn [str_lstrip]; [done|]. by rewrite Hc. Qed.

(** X14: [_safe_get] never fails and never returns surrounding white
    space: an index past the end of the row and a [None] cell give the empty
    text, so does a cell of white space only, and any other cell gives its
    text stripped, on which stripping again changes nothing. *)
Theorem safe_get_is_defensive (r : row) (index : nat) :
  ((length r <= index)%nat -> _safe_get r index = []) ∧
  (r !! index = Some None -> _safe_get r index = []) ∧
  (∀ s, r !! index = Some (Some s) ->
        _safe_get r index = str_strip s ∧
        (Forall (λ c, isspace c = true) s -> _safe_get r index = [])) ∧
  str_strip (_safe_get r index) = _safe_get r index ∧
  no_space_ends (_safe_get r index).
Proof.
  split; [|split; [|split; [|split]]].
  - intros H. unfold _safe_get. by rewrite lookup_ge_None_2.
  - intros H. unfold _safe_get. by rewrite H.
  - intros s H. unfold _safe_get. rewrite H. split; [done|].
    intros Hs. unfold str_strip. by rewrite str_lstrip_all_space.
  - apply _safe_get_stripped.
  - apply stripped_no_space_ends, _safe_get_stripped.
Qed.

Lemma safe_get_is_defensive_witness :
  ((length [Some (u " a "); None] <= 5)%nat -> _safe_get [Some (u " a "); None] 5 = []) ∧
  ([Some (u " a "); None] !! 5%nat = Some None -> _safe_get [Some (u " a "); None] 5 = []) ∧
  (∀ s, [Some (u " a "); None] !! 5%nat = Some (Some s) ->
        _safe_get [Some (u " a "); None] 5 = str_strip s ∧
        (Forall (λ c, isspace c = true) s -> _safe_get [Some (u " a "); None] 5 = [])) ∧
  str_strip (_safe_get [Some (u " a "); None] 5) = _safe_get [Some (u " a "); None] 5 ∧
  no_space_ends (_safe_get [Some (u " a "); None] 5).
Proof. apply (safe_get_is_defensive [Some (u " a "); None] 5). Defined.

Lemma clean_text_stripped s : stripped s -> s ≠ [] -> clean_text s.
Proof. intros Hs Hne. split; [done|]. by apply stripped_no_space_ends. Qed.

Lemma component_plain_clean field :
  stripped field -> Forall clean_text (component "" field "").
Proof.
  intros Hs. unfold component. destruct field as [|c s]; cbn [truthy]; [constructor|].
  change (u "") with (@nil N). rewrite app_nil_r. cbn [app].
  repeat constructor; [done | by apply stripped_no_space_ends ..].
Qed.

Lemma component_wrapped_clean (prefix suffix : N) field :
  isspace prefix = false -> isspace suffix = false ->
  Forall clean_text (if truthy field then [[prefix] ++ field ++ [suffix]] else []).
Proof.
  intros Hp Hs. destruct (truthy field); [|constructor].
  repeat constructor; [done | |].
  - cbn. by intros c [= <-].
  - intros c. rewrite (app_assoc [prefix]), last_snoc. by intros [= <-].
Qed.

Lemma component_share_clean field :
  stripped field -> Forall clean_text (component "" field "%").
Proof.
  intros Hs. unfold component. destruct field as [|c s]; cbn [truthy]; [constructor|].
  change (u "") with (@nil N). change (u "%") with [37]. cbn [app].
  apply stripped_no_space_ends in Hs as [Hh _].
  repeat constructor; [done | |].
  - cbn. intros c' [= <-]. by apply Hh.
  - intros c'. change (c :: s ++ [37]) with ((c :: s) ++ [37]).
    rewrite last_snoc. by intros [= <-].
Qed.

Lemma str_join_clean parts :
  parts ≠ [] -> Forall clean_text parts -> clean_text (str_join (u " ") parts).
Proof.
  intros Hne Hc. split.
  - destruct parts as [|p ps]; [done|]. apply str_join_nonempty.
    by apply Forall_cons in Hc as [[? _] _].
  - by apply str_join_no_space_ends.
Qed.

Lemma writer_entry_clean first middle last pro cae share w :
  stripped first -> stripped middle -> stripped last -> stripped share ->
  writer_entry first middle last pro cae share = Some w -> clean_text w.
Proof.
  intros H1 H2 H3 H4. unfold writer_entry.
  destruct (truthy first || truthy middle || truthy last) eqn:Hany; [|done].
  intros [= <-]. apply str_join_clean.
  - unfold component at 1 2 3. change (u "") with (@nil N).
    by destruct first, middle, last.
  - repeat (apply Forall_app; split);
      try (by apply component_plain_clean); [..|by apply component_share_clean].
    + by apply (component_wrapped_clean 40 41).
    + by apply (component_wrapped_clean 91 93).
Qed.

Lemma publisher_entry_clean name pro cae share w :
  stripped name -> stripped share ->
  publisher_entry name pro cae share = Some w -> clean_text w.
Proof.
  intros H1 H4. unfold publisher_entry.
  destruct (truthy name) eqn:Hany; [|done].
  intros [= <-]. apply str_join_clean.
  - unfold component at 1. change (u "") with (@nil N). by destruct name.
  - repeat (apply Forall_app; split);
      try (by apply component_plain_clean); [..|by apply component_share_clean].
    + by apply (component_wrapped_clean 40 41).
    + by apply (component_wrapped_clean 91 93).
Qed.

Lemma writer_of_group_clean r start_idx i :
  Forall clean_text (writer_of_group r start_idx i) ∧
  (length (writer_of_group r start_idx i) <= 1)%nat.
Proof.
  unfold writer_of_group. rewrite _format_writer_of_row.
  destruct (writer_entry _ _ _ _ _ _) as [w|] eqn:E; cbn [append_opt];
    [|split; [constructor | cbn; lia]].
  apply writer_entry_clean in E; try apply _safe_get_stripped.
  destruct (truthy w); cbn [app length]; (split; [|lia]).
  - apply Forall_cons. split; [exact E | by apply Forall_nil].
  - by apply Forall_nil.
Qed.

Lemma publisher_of_group_clean r start_idx i :
  Forall clean_text (publisher_of_group r start_idx i) ∧
  (length (publisher_of_group r start_idx i) <= 1)%nat.
Proof.
  unfold publisher_of_group. rewrite _format_publisher_entry.
  destruct (publisher_entry _ _ _ _) as [w|] eqn:E; cbn [append_opt];
    [|split; [constructor | cbn; lia]].
  apply publisher_entry_clean in E; try apply _safe_get_stripped.
  destruct (truthy w); cbn [app length]; (split; [|lia]).
  - apply Forall_cons. split; [exact E | by apply Forall_nil].
  - by apply Forall_nil.
Qed.

Lemma append_opt_app l o : append_opt l o = l ++ append_opt [] o.
Proof. destruct o as [s|]; cbn; [destruct (truthy s)|]; by rewrite ?app_nil_r. Qed.

Lemma filter_fits_none (P : nat -> Prop) `{∀ i, Decision (P i)} a n :
  (∀ i j, (i <= j)%nat -> P j -> P i) -> ¬ P a -> filter P (seq a n) = [].
Proof.
  intros Hmono Ha. revert a Ha. induction n as [|n IH]; intros a Ha; [done|].
  cbn [seq]. rewrite filter_cons_False by done.
  apply IH. intros HS. apply Ha. apply (Hmono a (S a)); [lia | done].
Qed.

(** The loop with its [break] reads the groups that fit, in order. *)
Lemma _parse_writers_loop_groups r start_idx a n writers :
  _parse_writers_loop r start_idx (seq a n) writers
    = writers ++ concat (map (writer_of_group r start_idx)
                           (filter (writer_group_fits r start_idx) (seq a n))).
Proof.
  revert a writers. induction n as [|n IH]; intros a acc;
    cbn [seq _parse_writers_loop].
  - by rewrite app_nil_r.
  - case_decide as Hlen.
    + rewrite filter_cons_False by (unfold writer_group_fits; lia).
      rewrite filter_fits_none; [by rewrite app_nil_r | |].
      * unfold writer_group_fits. intros. lia.
      * unfold writer_group_fits. lia.
    + rewrite filter_cons_True by (unfold writer_group_fits; lia).
      rewrite IH, append_opt_app. cbn [map concat]. by rewrite <- app_assoc.
Qed.

Lemma _parse_publishers_loop_groups r start_idx a n publishers :
  _parse_publishers_loop r start_idx (seq a n) publishers
    = publishers ++ concat (map (publisher_of_group r start_idx)
                              (filter (publisher_group_fits r start_idx) (seq a n))).
Proof.
  revert a publishers. induction n as [|n IH]; intros a acc;
    cbn [seq _parse_publishers_loop].
  - by rewrite app_nil_r.
  - case_decide as Hlen.
    + rewrite filter_cons_False by (unfold publisher_group_fits; lia).
      rewrite filter_fits_none; [by rewrite app_nil_r | |].
      * unfold publisher_group_fits. intros. lia.
      * unfold publisher_group_fits. lia.
    + rewrite filter_cons_True by (unfold publisher_group_fits; lia).
      rewrite IH, append_opt_app. cbn [map concat]. by rewrite <- app_assoc.
Qed.

(** X15: stopping at the first group that does not fit loses nothing: the
    writers of a row are the entries of all the groups, among the five,
    whose six cells lie inside the row, in group order, and likewise the
    publishers with their four cells; a later group never fits when an
    earlier one does not. *)
Theorem groups_read_are_those_that_fit (r : row) (start_idx : nat) :
  _parse_writers r start_idx
    = concat (map (writer_of_group r start_idx)
                (filter (writer_group_fits r start_idx) (seq 0 5))) ∧
  _parse_publishers r start_idx
    = concat (map (publisher_of_group r start_idx)
                (filter (publisher_group_fits r start_idx) (seq 0 5))) ∧
  (∀ i j, (i <= j)%nat -> writer_group_fits r start_idx j ->
          writer_group_fits r start_idx i) ∧
  (∀ i j, (i <= j)%nat -> publisher_group_fits r start_idx j ->
          publisher_group_fits r start_idx i).
Proof.
  unfold _parse_writers, _parse_publishers.
  rewrite _parse_writers_loop_groups, _parse_publishers_loop_groups.
  repeat split; unfold writer_group_fits, publisher_group_fits; intros; lia.
Qed.

Lemma concat_groups_length {A} (g : nat -> list A) (l : list nat) :
  (∀ i, (length (g i) <= 1)%nat) -> (length (concat (map g l)) <= length l)%nat.
Proof.
  intros Hg. induction l as [|i l IH]; cbn [map concat length]; [lia|].
  rewrite length_app. specialize (Hg i). lia.
Qed.

Lemma filter_below (P : nat -> Prop) `{∀ i, Decision (P i)} k n :
  (∀ i, P i -> (i < k)%nat) -> (length (filter P (seq 0 n)) <= k)%nat.
Proof.
  intros HP.
  assert (Hg : ∀ a m, (length (filter P (seq a m)) <= k - a)%nat).
  { intros a m. revert a. induction m as [|m IH]; intros a; cbn [seq]; [cbn; lia|].
    rewrite filter_cons. case_decide as Ha; cbn [length].
    - apply HP in Ha. specialize (IH (S a)). lia.
    - specialize (IH (S a)). lia. }
  specialize (Hg 0%nat n). lia.
Qed.

(** X16: how many writers and publishers a row can give. Never more than
    five of each; not more than [k] when the row ends before the last cell
    of group [k]. For the decoder, which reads writers from column 12 and
    publishers from column 18, a row of 34 cells, the narrowest it accepts,
    gives two writers and two publishers at most; five writers need 58
    cells, five publishers 62. *)
Theorem groups_bounded_by_row_width (r : row) (start_idx k : nat) :
  (length (_parse_writers r start_idx) <= 5)%nat ∧
  (length (_parse_publishers r start_idx) <= 5)%nat ∧
  ((length r <= start_idx + 10 * k + 5)%nat ->
   (length (_parse_writers r start_idx) <= k)%nat) ∧
  ((length r <= start_idx + 10 * k + 3)%nat ->
   (length (_parse_publishers r start_idx) <= k)%nat) ∧
  (length r = 34%nat ->
   (length (_parse_writers r 12) <= 2)%nat ∧
   (length (_parse_publishers r 18) <= 2)%nat) ∧
  ((length r < 58)%nat -> (length (_parse_writers r 12) <= 4)%nat) ∧
  ((length r < 62)%nat -> (length (_parse_publishers r 18) <= 4)%nat).
Proof.
  assert (Hw : ∀ s j, (length r <= s + 10 * j + 5)%nat ->
                      (length (_parse_writers r s) <= j)%nat).
  { intros s j Hlen. unfold _parse_writers. rewrite _parse_writers_loop_groups.
    cbn [app]. etransitivity.
    - apply concat_groups_length. intros i. apply writer_of_group_clean.
    - apply filter_below. unfold writer_group_fits. intros i Hi. lia. }
  assert (Hp : ∀ s j, (length r <= s + 10 * j + 3)%nat ->
                      (length (_parse_publishers r s) <= j)%nat).
  { intros s j Hlen. unfold _parse_publishers. rewrite _parse_publishers_loop_groups.
    cbn [app]. etransitivity.
    - apply concat_groups_length. intros i. apply publisher_of_group_clean.
    - apply filter_below. unfold publisher_group_fits. intros i Hi. lia. }
  assert (Hw5 : (length (_parse_writers r start_idx) <= 5)%nat).
  { unfold _parse_writers. rewrite _parse_writers_loop_groups. cbn [app].
    etransitivity;
      [apply concat_groups_length; intros i; apply writer_of_group_clean|].
    etransitivity; [apply length_filter|]. by rewrite length_seq. }
  assert (Hp5 : (length (_parse_publishers r start_idx) <= 5)%nat).
  { unfold _parse_publishers. rewrite _parse_publishers_loop_groups. cbn [app].
    etransitivity;
      [apply concat_groups_length; intros i; apply publisher_of_group_clean|].
    etransitivity; [apply length_filter|]. by rewrite length_seq. }
  split; [done|]. split; [done|]. split; [apply Hw|]. split; [apply Hp|].
  split; [|split].
  - intros H34. split; [apply Hw | apply Hp]; lia.
  - intros H. apply Hw. lia.
  - intros H. apply Hp. lia.
Qed.

Lemma groups_bounded_by_row_width_witness :
  (length (_parse_writers (replicate 34 (Some (u "x"))) 12) <= 2)%nat ∧
  (length (_parse_publishers (replicate 34 (Some (u "x"))) 18) <= 2)%nat.
Proof.
  destruct (groups_bounded_by_row_width (replicate 34 (Some (u "x"))) 12 2)
    as (_ & _ & _ & _ & H & _).
  apply H. reflexivity.
Defined.

(** A row of 34 cells that are all "x" does give two writers and two
    publishers. *)
Example two_groups_in_34_cells :
  _parse_writers (replicate 34 (Some (u "x"))) 12
    = [u "x x x (x) [x] x%"; u "x x x (x) [x] x%"] ∧
  _parse_publishers (replicate 34 (Some (u "x"))) 18
    = [u "x (x) [x] x%"; u "x (x) [x] x%"].
Proof. split; reflexivity. Qed.

Lemma _parse_writers_clean r start_idx : Forall clean_text (_parse_writers r start_idx).
Proof.
  unfold _parse_writers. rewrite _parse_writers_loop_groups. cbn [app].
  apply Forall_concat, Forall_fmap, Forall_true. intros i. apply writer_of_group_clean.
Qed.

Lemma _parse_publishers_clean r start_idx :
  Forall clean_text (_parse_publishers r start_idx).
Proof.
  unfold _parse_publishers. rewrite _parse_publishers_loop_groups. cbn [app].
  apply Forall_concat, Forall_fmap, Forall_true. intros i.
  apply publisher_of_group_clean.
Qed.

Lemma records_of_rows_clean rows : Forall clean_record (records_of_rows rows).
Proof.
  unfold records_of_rows. apply Forall_fmap, Forall_true. intros r.
  unfold clean_record, record_of_row.
  cbn [filename_from_data track_title source_program bpm key writers publishers].
  repeat split; try apply _safe_get_stripped;
    [apply _parse_writers_clean | apply _parse_publishers_clean].
Qed.

(** X17: every record the decoders return is clean: its five texts carry
    no surrounding white space, and each of its writers and publishers is a
    non-empty text that neither starts nor ends with white space, whatever
    the cells hold. *)
Theorem decoded_records_are_clean (wb : list (list row)) (reader : list row)
    (records : list TrackMetadata) :
  _parse_excel wb = Ok records ∨ _parse_csv reader = Ok records ->
  Forall clean_record records.
Proof.
  intros [H|H].
  - rewrite _parse_excel_records in H. injection H as <-. apply records_of_rows_clean.
  - destruct reader as [|h rows]; [discriminate|].
    rewrite _parse_csv_records in H. injection H as <-. apply records_of_rows_clean.
Qed.

Lemma decoded_records_are_clean_witness :
  Forall clean_record (records_of_rows [replicate 34 (Some (u " x "))]).
Proof.
  apply (decoded_records_are_clean [] [[]; replicate 34 (Some (u " x "))]).
  right. apply _parse_csv_records.
Defined.

(** X18: the two decoders on the same rows. Sheets are decoded one after
    the other and their records concatenated. The CSV decoder drops the
    first row whatever it holds and fails on a file without any row; the
    Excel decoder drops nothing and accepts an empty workbook: on one sheet
    with the rows of a CSV file it returns the records of the CSV decoder
    preceded by the record of the first row, when that row has 34 cells. *)
Theorem decoders_differ_on_first_row (header : row) (rows : list row)
    (wb1 wb2 : list (list row)) :
  _parse_csv [] = Raise (ValueError "Error parsing CSV file: ") ∧
  _parse_excel [] = Ok [] ∧
  _parse_csv (header :: rows) = Ok (records_of_rows rows) ∧
  _parse_excel [header :: rows]
    = Ok ((if decide (wide_enough header) then [record_of_row header] else [])
          ++ records_of_rows rows) ∧
  _parse_excel (wb1 ++ wb2)
    = Ok (records_of_rows (concat wb1) ++ records_of_rows (concat wb2)) ∧
  (length (records_of_rows rows) <= length rows)%nat.
Proof.
  split; [done|]. split; [done|]. split; [apply _parse_csv_records|].
  split; [|split].
  - rewrite _parse_excel_records. cbn [concat]. rewrite app_nil_r.
    change (header :: rows) with ([header] ++ rows).
    rewrite records_of_rows_app. do 2 f_equal.
    unfold records_of_rows. rewrite filter_cons, filter_nil. by case_decide.
  - by rewrite _parse_excel_records, concat_app, records_of_rows_app.
  - unfold records_of_rows. rewrite length_map. apply length_filter.
Qed.

(** ** The match over all files, and the uploads *)

Section MatchAllFiles.
Variable lower : pystr -> pystr.

Lemma title_loop_first_hit metadata_list audio_filename new_entry :
  title_loop lower metadata_list audio_filename new_entry
    = match first_hit (λ m, str_in (lower (track_title m) ++ u "_") audio_filename)
              metadata_list with
      | Some m =>
          {| File_Path := File_Path new_entry;
             Uploaded_Audio := Uploaded_Audio new_entry;
             Filename_From_Data := Filename_From_Data new_entry;
             Track_Title := track_title m;
             Source_Program := source_program m;
             BPM := bpm m;
             Key := key m;
             Composers := str_join (u ", ") (writers m);
             Publishers := str_join (u ", ") (publishers m) |}
      | None => new_entry
      end.
Proof.
  unfold first_hit.
  induction metadata_list as [|m l IH]; cbn [title_loop List.find]; [done|].
  by destruct (str_in (lower (track_title m) ++ u "_") audio_filename).
Qed.

Lemma filename_loop_first_hit metadata_list audio_filename new_entry :
  filename_loop lower metadata_list audio_filename new_entry
    = match first_hit (λ m, str_in (lower (filename_from_data m)) audio_filename)
              metadata_list with
      | Some m =>
          {| File_Path := File_Path new_entry;
             Uploaded_Audio := Uploaded_Audio new_entry;
             Filename_From_Data := filename_from_data m;
             Track_Title := Track_Title new_entry;
             Source_Program := Source_Program new_entry;
             BPM := BPM new_entry;
             Key := Key new_entry;
             Composers := Composers new_entry;
             Publishers := Publishers new_entry |}
      | None => new_entry
      end.
Proof.
  unfold first_hit.
  induction metadata_list as [|m l IH]; cbn [filename_loop List.find]; [done|].
  by destruct (str_in (lower (filename_from_data m)) audio_filename).
Qed.

Lemma match_file_depends_on metadata_list file_info file_info' :
  File_Path file_info = File_Path file_info' ->
  Uploaded_Audio file_info = Uploaded_Audio file_info' ->
  Filename_From_Data file_info = Filename_From_Data file_info' ->
  match_file lower metadata_list file_info = match_file lower metadata_list file_info'.
Proof.
  intros H1 H2 H3. unfold match_file. by rewrite H1, H2, H3.
Qed.

Lemma match_file_keeps metadata_list file_info :
  File_Path (match_file lower metadata_list file_info) = File_Path file_info ∧
  Uploaded_Audio (match_file lower metadata_list file_info) = Uploaded_Audio file_info.
Proof.
  unfold match_file. rewrite filename_loop_first_hit, title_loop_first_hit.
  by destruct (first_hit _ _), (first_hit _ _).
Qed.

Lemma match_file_again metadata_list file_info :
  match_file lower metadata_list (match_file lower metadata_list file_info)
    = match_file lower metadata_list file_info.
Proof.
  destruct (match_file_keeps metadata_list file_info) as [Hp Ha].
  unfold match_file at 1. rewrite Hp, Ha.
  unfold match_file. rewrite !filename_loop_first_hit, !title_loop_first_hit.
  destruct (first_hit (λ m, str_in (lower (track_title m) ++ u "_") _) metadata_list),
    (first_hit (λ m, str_in (lower (filename_from_data m)) _) metadata_list); done.
Qed.

(** X19: the match over the list of files keeps the files, their order,
    their paths and names; what it returns does not depend on the six
    metadata fields the files had before, so a text typed into one of them
    is lost at the next match; and matching the result again with the same
    records changes nothing. *)
Theorem match_files_rerun (metadata_list : list TrackMetadata)
    (wav_files wav_files' : list FileInfo) :
  length (match_files lower metadata_list wav_files) = length wav_files ∧
  map File_Path (match_files lower metadata_list wav_files) = map File_Path wav_files ∧
  map Uploaded_Audio (match_files lower metadata_list wav_files)
    = map Uploaded_Audio wav_files ∧
  (map (λ f, (File_Path f, Uploaded_Audio f, Filename_From_Data f)) wav_files
     = map (λ f, (File_Path f, Uploaded_Audio f, Filename_From_Data f)) wav_files' ->
   match_files lower metadata_list wav_files
     = match_files lower metadata_list wav_files') ∧
  match_files lower metadata_list (match_files lower metadata_list wav_files)
    = match_files lower metadata_list wav_files.
Proof.
  unfold match_files. split; [apply length_map|].
  split; [|split; [|split]].
  - rewrite <- list_fmap_compose. apply list_fmap_ext. intros i f _.
    apply match_file_keeps.
  - rewrite <- list_fmap_compose. apply list_fmap_ext. intros i f _.
    apply match_file_keeps.
  - revert wav_files'. induction wav_files as [|f l IH]; intros [|f' l'];
      cbn [map]; try done.
    intros [= H1 H2 H3 Hl]. f_equal; [by apply match_file_depends_on | by apply IH].
  - rewrite <- list_fmap_compose. apply list_fmap_ext. intros i f _.
    apply match_file_again.
Qed.

(** X20: a file whose lower-cased name holds no underscore is matched by
    no title, whatever the records are: its six metadata fields come out
    blank. *)
Theorem no_underscore_no_metadata (metadata_list : list TrackMetadata)
    (file_info : FileInfo) :
  95 ∉ lower (Uploaded_Audio file_info) ->
  metadata_blank (match_file lower metadata_list file_info).
Proof.
  intros H95. unfold match_file.
  set (blank := {| File_Path := File_Path file_info;
                   Uploaded_Audio := Uploaded_Audio file_info;
                   Filename_From_Data := Filename_From_Data file_info;
                   Track_Title := []; Source_Program := []; BPM := [];
                   Key := []; Composers := []; Publishers := [] |}).
  assert (Ht : title_loop lower metadata_list (lower (Uploaded_Audio file_info)) blank
               = blank).
  { destruct (title_loop_spec lower metadata_list (lower (Uploaded_Audio file_info)) blank)
      as [(i & m & (_ & (before & after & Hsub) & _) & _)|[_ Heq]]; [|done].
    exfalso. apply H95. rewrite Hsub. change (u "_") with [95]. set_solver. }
  rewrite Ht.
  pose proof (filename_loop_keeps lower metadata_list
                (lower (Uploaded_Audio file_info)) blank)
    as (_ & _ & H1 & H2 & H3 & H4 & H5 & H6).
  unfold metadata_blank. by rewrite H1, H2, H3, H4, H5, H6.
Qed.
End MatchAllFiles.

Lemma no_underscore_no_metadata_witness :
  metadata_blank
    (match_file ascii_lower [record_song; record_empty]
       (new_file_entry (u "/tmp/Song.wav") (u "Song.wav"))).
Proof.
  apply (no_underscore_no_metadata ascii_lower).
  vm_compute. set_solver.
Defined.

Section UploadFacts.
Variable temp_path : pystr -> pystr.

Lemma file_exists_spec (wav_files : list FileInfo) p :
  existsb (λ file_info, bool_decide (File_Path file_info = p)) wav_files = true
  ↔ p ∈ map File_Path wav_files.
Proof.
  rewrite existsb_exists, list_elem_of_fmap. split.
  - intros (f & Hf & Hp%bool_decide_eq_true). exists f. split; [done|].
    by apply list_elem_of_In.
  - intros (f & -> & Hf). exists f. split; [by apply list_elem_of_In|].
    by apply bool_decide_eq_true.
Qed.

Lemma add_uploaded_files_spec names wav_files :
  ∃ added,
    add_uploaded_files temp_path names wav_files = wav_files ++ added ∧
    Forall (λ f, ∃ name, name ∈ names ∧ f = new_file_entry (temp_path name) name ∧
                         temp_path name ∉ map File_Path wav_files) added ∧
    (NoDup (map File_Path wav_files) -> NoDup (map File_Path (wav_files ++ added))) ∧
    (∀ name, name ∈ names -> temp_path name ∈ map File_Path (wav_files ++ added)).
Proof.
  revert wav_files. induction names as [|name rest IH]; intros wfs;
    cbn [add_uploaded_files].
  - exists []. rewrite app_nil_r. split; [done|]. split; [constructor|].
    split; [done|]. intros name H. by apply elem_of_nil in H.
  - destruct (existsb _ wfs) eqn:E; cbn [negb].
    + apply file_exists_spec in E.
      destruct (IH wfs) as (added & -> & Hnew & Hnd & Hin).
      exists added. split; [done|]. split; [|split; [done|]].
      * eapply Forall_impl; [exact Hnew|]. intros f (n & Hn & -> & Hp).
        exists n. split; [by right | done].
      * intros n [->|Hn]%elem_of_cons; [|by apply Hin].
        rewrite map_app. apply elem_of_app. by left.
    + assert (Hnot : temp_path name ∉ map File_Path wfs).
      { intros H%file_exists_spec. congruence. }
      destruct (IH (wfs ++ [new_file_entry (temp_path name) name]))
        as (added & -> & Hnew & Hnd & Hin).
      exists (new_file_entry (temp_path name) name :: added).
      rewrite <- app_assoc. cbn [app]. split; [done|]. split; [|split].
      * constructor; [exists name; split; [by left | done]|].
        eapply Forall_impl; [exact Hnew|]. intros f (n & Hn & -> & Hp).
        exists n. split; [by right|]. split; [done|].
        intros H. apply Hp. rewrite map_app. apply elem_of_app. by left.
      * intros Hw. rewrite <- app_assoc in Hnd. cbn [app] in Hnd. apply Hnd.
        rewrite map_app. cbn [map new_file_entry File_Path].
        apply NoDup_app. split; [done|]. split; [|apply NoDup_singleton].
        intros p Hp [->|H]%elem_of_cons; [done | by apply elem_of_nil in H].
      * intros n [->|Hn]%elem_of_cons.
        -- rewrite map_app. apply elem_of_app. right. cbn. by left.
        -- specialize (Hin n Hn). rewrite <- app_assoc in Hin. exact Hin.
Qed.

Lemma add_uploaded_files_known names wav_files :
  (∀ name, name ∈ names -> temp_path name ∈ map File_Path wav_files) ->
  add_uploaded_files temp_path names wav_files = wav_files.
Proof.
  induction names as [|name rest IH]; intros H; cbn [add_uploaded_files]; [done|].
  assert (E : existsb (λ f, bool_decide (File_Path f = temp_path name)) wav_files = true).
  { apply file_exists_spec, H. by left. }
  rewrite E. cbn [negb]. apply IH. intros n Hn. apply H. by right.
Qed.

(** X21: the loop over the uploads only appends: the entries of the
    session stay as they are, in place; what is appended are blank entries
    of uploads whose path was not in the list yet; paths that were distinct
    stay distinct; every upload has an entry afterwards; and running the
    loop again on the same uploads, as every rerun of the page does, appends
    nothing. *)
Theorem uploads_are_added_once (names : list pystr) (wav_files : list FileInfo) :
  ∃ added,
    add_uploaded_files temp_path names wav_files = wav_files ++ added ∧
    Forall (λ f, ∃ name, name ∈ names ∧ f = new_file_entry (temp_path name) name ∧
                         temp_path name ∉ map File_Path wav_files) added ∧
    (NoDup (map File_Path wav_files) ->
     NoDup (map File_Path (add_uploaded_files temp_path names wav_files))) ∧
    (∀ name, name ∈ names ->
       temp_path name ∈ map File_Path (add_uploaded_files temp_path names wav_files)) ∧
    add_uploaded_files temp_path names (add_uploaded_files temp_path names wav_files)
      = add_uploaded_files temp_path names wav_files.
Proof.
  destruct (add_uploaded_files_spec names wav_files) as (added & Heq & Hnew & Hnd & Hin).
  exists added. rewrite Heq. repeat split; try done.
  by apply add_uploaded_files_known.
Qed.
End UploadFacts.

Lemma id3_comment_is_riff_comment_witness :
  comm_texts (add_id3_metadata {[ "BPM" := u "120" ]}) = [u "BPM: 120"] ∧
  (COMM (u "eng") (u "Description") (u "BPM: 120")
     ∈ add_id3_metadata {[ "BPM" := u "120" ]} ->
   u "eng" = u "eng" ∧ u "Description" = u "Description").
Proof.
  destruct (id3_comment_is_riff_comment {[ "BPM" := u "120" ]}) as [H1 H2].
  split; [exact H1|]. apply H2.
Defined.

Lemma groups_read_are_those_that_fit_witness :
  _parse_writers (replicate 34 (Some (u "x"))) 12
    = concat (map (writer_of_group (replicate 34 (Some (u "x"))) 12) [0; 1]%nat) ∧
  (writer_group_fits (replicate 34 (Some (u "x"))) 12 1 ->
   writer_group_fits (replicate 34 (Some (u "x"))) 12 0).
Proof.
  destruct (groups_read_are_those_that_fit (replicate 34 (Some (u "x"))) 12)
    as (H1 & _ & H3 & _).
  split; [exact H1|]. apply H3. lia.
Defined.

Lemma match_files_rerun_witness :
  match_files ascii_lower [record_song] [file_song]
    = match_files ascii_lower [record_song]
        [{| File_Path := File_Path file_song;
            Uploaded_Audio := Uploaded_Audio file_song;
            Filename_From_Data := Filename_From_Data file_song;
            Track_Title := u "typed by hand"; Source_Program := [];
            BPM := u "99"; Key := []; Composers := []; Publishers := [] |}] ∧
  match_files ascii_lower [record_song] (match_files ascii_lower [record_song] [file_song])
    = match_files ascii_lower [record_song] [file_song].
Proof.
  destruct (match_files_rerun ascii_lower [record_song] [file_song]
              [{| File_Path := File_Path file_song;
                  Uploaded_Audio := Uploaded_Audio file_song;
                  Filename_From_Data := Filename_From_Data file_song;
                  Track_Title := u "typed by hand"; Source_Program := [];
                  BPM := u "99"; Key := []; Composers := []; Publishers := [] |}])
    as (_ & _ & _ & H4 & H5).
  split; [apply H4; reflexivity | exact H5].
Defined.

Lemma uploads_are_added_once_witness :
  NoDup (map File_Path
           (add_uploaded_files (λ name, u "/tmp/" ++ name) [u "a.wav"; u "a.wav"; u "b.wav"]
              [file_song])) ∧
  add_uploaded_files (λ name, u "/tmp/" ++ name) [u "a.wav"; u "a.wav"; u "b.wav"]
      [file_song]
    = [file_song; new_file_entry (u "/tmp/a.wav") (u "a.wav");
       new_file_entry (u "/tmp/b.wav") (u "b.wav")].
Proof.
  destruct (uploads_are_added_once (λ name, u "/tmp/" ++ name)
              [u "a.wav"; u "a.wav"; u "b.wav"] [file_song])
    as (added & _ & _ & Hnd & _ & _).
  split; [|reflexivity].
  apply Hnd. apply NoDup_singleton.
Defined.
